(** * The treemap aggregator of [TreemapChart.tsx]

    The component's [useMemo] callback [treemapData] turns the table's
    records into the tree handed to the treemap renderer.  It is embedded
    here as a function of its five inputs (the records, the three field
    selections and the chart title).

    Conventions of the embedding.

    - A JavaScript number is an integer of [Z]: the sums and the clamp at
      zero that the aggregator computes agree with IEEE doubles as long as
      all sums are integers below 2^53.
    - [aggregated], [groups] and the per-group [items] are plain objects
      created by [{}].  An object is its list of own properties in creation
      order; [Object.entries] lists them in the order of the language (array
      indices first, ascending, then the other keys in creation order); a
      read [o[k]] that finds no own property continues in [Object.prototype].
    - [Object.prototype] is the initial one of the realm: its members are
      [constructor], [__proto__] and the ten methods of
      [objectPrototypeMethods].  A label or group name that is one of these
      is found by the reads [aggregated[label]], [groups[groupName]] and
      [groups[groupName][label]] although no record has put it there.
    - A run whose group name is such a member goes on to read and write the
      properties of that built-in object; its outcome is [Escapes], and
      nothing is stated about it.  Every other run is followed to its tree.
    - [colorUtils.getHexForColor] and the source text that
      [Function.prototype.toString] prints for a built-in function belong to
      the host; they are parameters ([Host]). *)

From Stdlib Require Import List String Ascii ZArith NArith Lia Bool.
From Stdlib Require Import Permutation Sorted DecimalString.
Import ListNotations.

Local Open Scope string_scope.
Local Open Scope Z_scope.
Local Open Scope list_scope.

Set Implicit Arguments.
Set Warnings "-register-all".

(* ------------------------------------------------------------------ *)
(** ** Property keys *)

(** [Number::toString] on the integers the aggregator adds up. *)
Definition numberToString (z : Z) : string :=
  NilZero.string_of_int (Z.to_int z).

(** The largest array index, 2^32 - 2. *)
Definition maxArrayIndex : N := 4294967294%N.

(** A key is an array index when it is the canonical decimal text of an
    integer between 0 and 2^32 - 2: parsing it and printing the number gives
    the key back. *)
Definition arrayIndex (k : string) : option N :=
  match NilZero.uint_of_string k with
  | Some d =>
      let n := N.of_uint d in
      if ((NilZero.string_of_uint (N.to_uint n) =? k)%string
          && (n <=? maxArrayIndex)%N)%bool
      then Some n else None
  | None => None
  end.

Definition isArrayIndex (k : string) : bool :=
  match arrayIndex k with Some _ => true | None => false end.

(* ------------------------------------------------------------------ *)
(** ** Objects used as maps *)

(** What a read can find in [Object.prototype]: one of its methods (a
    built-in function, known by the name it prints), or the [__proto__]
    accessor. *)
Inductive inherited : Type :=
| InhFunction (name : string)
| InhProtoAccessor.

Definition objectPrototypeMethods : list string :=
  [ "hasOwnProperty"; "isPrototypeOf"; "propertyIsEnumerable";
    "toLocaleString"; "toString"; "valueOf";
    "__defineGetter__"; "__defineSetter__";
    "__lookupGetter__"; "__lookupSetter__" ].

Definition objectPrototype (k : string) : option inherited :=
  if (k =? "__proto__")%string then Some InhProtoAccessor
  else if (k =? "constructor")%string then Some (InhFunction "Object")
  else if existsb (String.eqb k) objectPrototypeMethods
       then Some (InhFunction k)
       else None.

Definition isInherited (k : string) : bool :=
  match objectPrototype k with Some _ => true | None => false end.

(** The result of the read [o[k]]. *)
Inductive lookup (V : Type) : Type :=
| Own (v : V)
| Inherited (m : inherited)
| Undefined.
Arguments Inherited {V} m.
Arguments Undefined {V}.

Section Objects.
Variable V : Type.

(** Own properties, oldest first. *)
Definition object : Type := list (string * V).

Definition keys (o : object) : list string := map fst o.

Fixpoint getOwn (o : object) (k : string) : option V :=
  match o with
  | [] => None
  | (k', v) :: o' => if (k' =? k)%string then Some v else getOwn o' k
  end.

(** [o[k] = v] where the write creates or updates an own property: an
    existing property keeps its place, a new one is the youngest. *)
Fixpoint putOwn (o : object) (k : string) (v : V) : object :=
  match o with
  | [] => [(k, v)]
  | (k', v') :: o' =>
      if (k' =? k)%string then (k', v) :: o' else (k', v') :: putOwn o' k v
  end.

Definition Get (o : object) (k : string) : lookup V :=
  match getOwn o k with
  | Some v => Own v
  | None =>
      match objectPrototype k with
      | Some m => Inherited m
      | None => Undefined
      end
  end.

(** *** [Object.entries] *)

(** The own properties whose key is an array index, with the index. *)
Fixpoint indexed (o : object) : list (N * (string * V)) :=
  match o with
  | [] => []
  | kv :: o' =>
      match arrayIndex (fst kv) with
      | Some n => (n, kv) :: indexed o'
      | None => indexed o'
      end
  end.

(** The other own properties, in creation order. *)
Definition named (o : object) : object :=
  filter (fun kv => negb (isArrayIndex (fst kv))) o.

Fixpoint insertAscending (x : N * (string * V))
    (l : list (N * (string * V))) : list (N * (string * V)) :=
  match l with
  | [] => [x]
  | y :: l' =>
      if (fst x <=? fst y)%N then x :: l else y :: insertAscending x l'
  end.

Fixpoint ascending (l : list (N * (string * V))) : list (N * (string * V)) :=
  match l with
  | [] => []
  | x :: l' => insertAscending x (ascending l')
  end.

Definition Object_entries (o : object) : list (string * V) :=
  map snd (ascending (indexed o)) ++ named o.

End Objects.

(* ------------------------------------------------------------------ *)
(** ** Cells, records and the host *)

Definition Field : Type := string.

(** What [getCellValue] can hand back, by the tests the aggregator makes:
    [null]/[undefined], a number, a string, an object with a [name] (and
    perhaps a [color]; [None] stands for an absent, [null] or [undefined]
    one), or anything else. *)
Inductive cell : Type :=
| CNull
| CNumber (z : Z)
| CString (s : string)
| CTag (name : string) (color : option string)
| COther.

Record Rec : Type := mkRec {
  recId : string;
  getCellValue : Field -> cell;
  getCellValueAsString : Field -> string
}.

Record Host : Type := mkHost {
  getHexForColor : string -> option string;
  nativeFunctionSource : string -> string
}.

(** A primitive held by a property of [aggregated] or by a leaf's [value]. *)
Inductive prim : Type :=
| PNaN
| PNumber (z : Z)
| PString (s : string).

Definition truthy (p : prim) : bool :=
  match p with
  | PNaN => false
  | PNumber z => negb (z =? 0)
  | PString s => negb (s =? "")%string
  end.

(** [p + m] for a number [m]: addition of numbers, concatenation once a
    string is involved. *)
Definition plusNumber (p : prim) (m : Z) : prim :=
  match p with
  | PNaN => PNaN
  | PNumber z => PNumber (z + m)
  | PString s => PString (s ++ numberToString m)%string
  end.

(** [ToPrimitive] of what [Object.prototype] holds. *)
Definition inheritedToString (h : Host) (m : inherited) : string :=
  match m with
  | InhFunction name => nativeFunctionSource h name
  | InhProtoAccessor => "[object Object]"
  end.

(* ------------------------------------------------------------------ *)
(** ** The tree *)

Inductive TreemapNode : Type := mkNode {
  id : string;
  value : option prim;
  color : option string;
  children : option (list TreemapNode)
}.

(** The outcome of a run of the callback.  [Throws] is a [TypeError];
    [Escapes] is a run that went on to read and write the properties of a
    built-in object of the realm, where its result is no longer a function
    of the inputs. *)
Inductive outcome (A : Type) : Type :=
| Returns (a : A)
| Throws
| Escapes.
Arguments Throws {A}.
Arguments Escapes {A}.

Definition bind {A B : Type} (x : outcome A) (f : A -> outcome B) : outcome B :=
  match x with
  | Returns a => f a
  | Throws => Throws
  | Escapes => Escapes
  end.

Notation "x <- c ;; k" := (bind c (fun x => k))
  (at level 61, c at next level, right associativity).

(* ------------------------------------------------------------------ *)
(** ** The callback *)

Section Aggregator.
Variable host : Host.
Variables labelField valueField : Field.

(** [record.getCellValueAsString(labelField) || "Unnamed"] *)
Definition label (record : Rec) : string :=
  let s := getCellValueAsString record labelField in
  if (s =? "")%string then "Unnamed" else s.

(** [typeof rawValue === "number" ? rawValue : 0] *)
Definition rawNumber (rawValue : cell) : Z :=
  match rawValue with
  | CNumber z => z
  | _ => 0
  end.

(** [Math.max(value, 0)] of the record's value cell. *)
Definition clamped (record : Rec) : Z :=
  Z.max (rawNumber (getCellValue record valueField)) 0.

(** [groupName] and [groupColor] of a group cell. *)
Definition groupOf (groupValue : cell) : string * option string :=
  match groupValue with
  | CTag name c =>
      (name,
       match c with
       | Some c' =>
           if (c' =? "")%string then None else getHexForColor host c'
       | None => None
       end)
  | CString s => (s, None)
  | _ => ("Ungrouped", None)
  end.

(** *** Without a group field *)

(** [if (!aggregated[label]) aggregated[label] = 0] *)
Definition initLabel (aggregated : object prim) (l : string) : object prim :=
  match Get aggregated l with
  | Own p => if truthy p then aggregated else putOwn aggregated l (PNumber 0)
  | Inherited _ => aggregated
  | Undefined => putOwn aggregated l (PNumber 0)
  end.

(** [aggregated[label] += m].  A method of [Object.prototype] is converted
    to its source text and the sum, a string, becomes an own property; the
    [__proto__] setter ignores a string. *)
Definition addToLabel (aggregated : object prim) (l : string) (m : Z)
    : object prim :=
  match Get aggregated l with
  | Own p => putOwn aggregated l (plusNumber p m)
  | Inherited (InhFunction name) =>
      putOwn aggregated l
        (PString (inheritedToString host (InhFunction name)
                  ++ numberToString m)%string)
  | Inherited InhProtoAccessor => aggregated
  | Undefined => putOwn aggregated l PNaN
  end.

Definition aggregateRecord (aggregated : object prim) (record : Rec)
    : object prim :=
  addToLabel (initLabel aggregated (label record)) (label record)
             (clamped record).

Definition aggregate (records : list Rec) : object prim :=
  fold_left aggregateRecord records [].

Definition leaves (aggregated : object prim) : list TreemapNode :=
  map (fun e => mkNode (fst e) (Some (snd e)) None None)
      (Object_entries aggregated).

(** *** With a group field *)

Record item : Type := mkItem {
  itemValue : Z;
  itemColor : option string
}.

Definition groupsObject : Type := object (object item).

Section Grouped.
Variable groupByField : Field.

Definition groupName (record : Rec) : string :=
  fst (groupOf (getCellValue record groupByField)).

Definition groupColor (record : Rec) : option string :=
  snd (groupOf (getCellValue record groupByField)).

(** [if (!groups[groupName]) groups[groupName] = {}] *)
Definition initGroup (groups : groupsObject) (g : string) : groupsObject :=
  match Get groups g with
  | Own _ => groups
  | Inherited _ => groups
  | Undefined => putOwn groups g []
  end.

(** [if (!groups[groupName][label])
       groups[groupName][label] = { value: 0, color: groupColor }] *)
Definition initItem (groups : groupsObject) (g l : string)
    (c : option string) : outcome groupsObject :=
  match Get groups g with
  | Own items =>
      match Get items l with
      | Own _ => Returns groups
      | Inherited _ => Returns groups
      | Undefined => Returns (putOwn groups g (putOwn items l (mkItem 0 c)))
      end
  | Inherited _ => Escapes
  | Undefined => Throws
  end.

(** [groups[groupName][label].value += m].  When [label] names a member
    of [Object.prototype] the write lands on that built-in and the
    group's own properties stay as they are. *)
Definition addToItem (groups : groupsObject) (g l : string) (m : Z)
    : outcome groupsObject :=
  match Get groups g with
  | Own items =>
      match Get items l with
      | Own data =>
          Returns (putOwn groups g
                     (putOwn items l
                        (mkItem (itemValue data + m) (itemColor data))))
      | Inherited _ => Returns groups
      | Undefined => Throws
      end
  | Inherited _ => Escapes
  | Undefined => Throws
  end.

Definition groupRecord (groups : groupsObject) (record : Rec)
    : outcome groupsObject :=
  let g := groupName record in
  groups1 <- initItem (initGroup groups g) g (label record)
                      (groupColor record) ;;
  addToItem groups1 g (label record) (clamped record).

Fixpoint groupRecords (groups : groupsObject) (records : list Rec)
    : outcome groupsObject :=
  match records with
  | [] => Returns groups
  | record :: rest =>
      groups1 <- groupRecord groups record ;;
      groupRecords groups1 rest
  end.

Definition itemChildren (items : object item) : list TreemapNode :=
  map (fun e =>
         mkNode (fst e) (Some (PNumber (itemValue (snd e))))
                (itemColor (snd e)) None)
      (Object_entries items).

(** [itemChildren[0]?.color] *)
Definition firstColor (nodes : list TreemapNode) : option string :=
  match nodes with
  | [] => None
  | n :: _ => color n
  end.

Definition branch (e : string * object item) : TreemapNode :=
  mkNode (fst e) None (firstColor (itemChildren (snd e)))
         (Some (itemChildren (snd e))).

Definition branches (groups : groupsObject) : list TreemapNode :=
  map branch (Object_entries groups).

End Grouped.
End Aggregator.

(** [treemapData], with the field selections as options ([undefined] is
    [None]; a [Field] is an object, hence truthy). *)
Definition treemapData (host : Host) (records : list Rec)
    (labelField valueField groupByField : option Field) (title : string)
    : outcome TreemapNode :=
  match labelField, valueField, records with
  | Some lf, Some vf, _ :: _ =>
      match groupByField with
      | Some gf =>
          groups <- groupRecords host lf vf gf [] records ;;
          Returns (mkNode title None None (Some (branches groups)))
      | None =>
          Returns (mkNode title None None
                     (Some (leaves (aggregate host lf vf records))))
      end
  | _, _, _ => Returns (mkNode title None None (Some []))
  end.

(** [(customPropertyValueByKey.title as string) || "Company revenue map"] *)
Definition chartTitle (configured : option string) : string :=
  match configured with
  | Some s => if (s =? "")%string then "Company revenue map" else s
  | None => "Company revenue map"
  end.

(* ------------------------------------------------------------------ *)
(** ** The order of own property keys *)

Definition indexValue (k : string) : N :=
  match arrayIndex k with Some n => n | None => 0%N end.

(** [ids] lists the keys [seen] (given in creation order) the way own
    properties are enumerated: the array indices among them come first, by
    ascending number, and the other keys follow in creation order. *)
Definition enumerationOrder (seen ids : list string) : Prop :=
  exists idx,
    ids = idx ++ filter (fun k => negb (isArrayIndex k)) seen
    /\ Permutation idx (filter isArrayIndex seen)
    /\ StronglySorted (fun a b => (indexValue a < indexValue b)%N) idx.

(* ------------------------------------------------------------------ *)
(** ** Vocabulary of the specification *)

Fixpoint sumZ (l : list Z) : Z :=
  match l with
  | [] => 0
  | z :: l' => z + sumZ l'
  end.

(** The distinct elements of a list, each at its first occurrence. *)
Fixpoint firstSeen (l : list string) : list string :=
  match l with
  | [] => []
  | x :: l' => x :: filter (fun y => negb (y =? x)%string) (firstSeen l')
  end.

Definition childrenOf (n : TreemapNode) : list TreemapNode :=
  match children n with
  | Some nodes => nodes
  | None => []
  end.

Definition root (title : string) (nodes : list TreemapNode) : TreemapNode :=
  mkNode title None None (Some nodes).

Definition leaf (l : string) (z : Z) (c : option string) : TreemapNode :=
  mkNode l (Some (PNumber z)) c None.

(** The number a leaf carries, when its [value] is one. *)
Definition leafNumber (n : TreemapNode) : option Z :=
  match value n with
  | Some (PNumber z) => Some z
  | _ => None
  end.

(** The sum of the [value]s of a list of leaves; [None] when one of them
    carries no number. *)
Fixpoint sumOfValues (nodes : list TreemapNode) : option Z :=
  match nodes with
  | [] => Some 0
  | n :: rest =>
      match leafNumber n, sumOfValues rest with
      | Some z, Some s => Some (z + s)
      | _, _ => None
      end
  end.


(** The sum of [max(rawValue, 0)] over the records whose value cell is a
    number. *)
Definition numericContributions (valueField : Field) (records : list Rec)
    : list Z :=
  flat_map (fun r => match getCellValue r valueField with
                     | CNumber z => [Z.max z 0]
                     | _ => []
                     end) records.

(** The sum of the clamped values of the records labelled [l]. *)
Definition labelTotal (labelField valueField : Field) (l : string)
    (records : list Rec) : Z :=
  sumZ (map (clamped valueField)
            (filter (fun r => (label labelField r =? l)%string) records)).

(** The records that fall into group [g]. *)
Definition recordsOfGroup (host : Host) (groupByField : Field) (g : string)
    (records : list Rec) : list Rec :=
  filter (fun r => (groupName host groupByField r =? g)%string) records.

(** The colour of the first record labelled [l]. *)
Definition firstColorOf (host : Host) (labelField groupByField : Field)
    (l : string) (records : list Rec) : option string :=
  match find (fun r => (label labelField r =? l)%string) records with
  | Some r => groupColor host groupByField r
  | None => None
  end.

(** No record's label is a member of [Object.prototype]. *)
Definition ownLabels (labelField : Field) (records : list Rec) : Prop :=
  forall r, In r records -> isInherited (label labelField r) = false.

(** No record's group name is a member of [Object.prototype]. *)
Definition ownGroupNames (host : Host) (groupByField : Field)
    (records : list Rec) : Prop :=
  forall r, In r records -> isInherited (groupName host groupByField r) = false.




(* ------------------------------------------------------------------ *)
(** ** The loops, step by step *)

Definition leafOf (e : string * prim) : TreemapNode :=
  mkNode (fst e) (Some (snd e)) None None.

Definition itemLeaf (e : string * item) : TreemapNode :=
  mkNode (fst e) (Some (PNumber (itemValue (snd e)))) (itemColor (snd e)) None.

(** The three statements of the loop body, seen from the items of the
    record's group: an own item grows by [m]; a label that names a member
    of [Object.prototype] leaves the items alone; any other label gets a
    fresh item. *)
Definition itemStep (items : object item) (l : string) (c : option string)
    (m : Z) : object item :=
  match getOwn items l with
  | Some data => putOwn items l (mkItem (itemValue data + m) (itemColor data))
  | None => if isInherited l then items else putOwn items l (mkItem (0 + m) c)
  end.

Definition itemsOf (groups : groupsObject) (g : string) : object item :=
  match getOwn groups g with
  | Some items => items
  | None => []
  end.

(** The loop body as one write to [groups]. *)
Definition groupStep (host : Host)
    (labelField valueField groupByField : Field)
    (groups : groupsObject) (r : Rec) : groupsObject :=
  putOwn groups (groupName host groupByField r)
         (itemStep (itemsOf groups (groupName host groupByField r))
                   (label labelField r) (groupColor host groupByField r)
                   (clamped valueField r)).

(** The items a group ends with: the loop body read on the items alone, over
    the records of the group. *)
Definition itemsRun (host : Host) (labelField valueField groupByField : Field)
    (records : list Rec) : object item :=
  fold_left (fun items r =>
               itemStep items (label labelField r)
                        (groupColor host groupByField r)
                        (clamped valueField r))
            records [].

(** The groups the loop ends with when it does not escape. *)
Definition groupRun (host : Host) (labelField valueField groupByField : Field)
    (records : list Rec) : groupsObject :=
  fold_left (groupStep host labelField valueField groupByField) records [].

(* ------------------------------------------------------------------ *)
(** ** Sample data *)

(** A host that knows one colour and prints built-in functions the way V8
    does. *)
Definition sampleHost : Host :=
  mkHost (fun c => if (c =? "blueBright")%string then Some "#2d7ff9" else None)
         (fun name => ("function " ++ name ++ "() { [native code] }")%string).

(** A row of a table with the fields Name, Revenue and Sector. *)
Definition row (name : string) (revenue sector : cell) : Rec :=
  mkRec ("rec" ++ name)%string
        (fun f => if (f =? "Name")%string then
                    if (name =? "")%string then CNull else CString name
                  else if (f =? "Revenue")%string then revenue
                  else if (f =? "Sector")%string then sector
                  else CNull)
        (fun f => if (f =? "Name")%string then name else "").

(** The records of the specification's examples. *)
Definition exampleRecords : list Rec :=
  [ row "A" (CNumber 10) (CTag "G1" None);
    row "A" (CNumber 5) (CTag "G1" None);
    row "B" (CNumber (-3)) (CTag "G2" (Some "blueBright")) ].

(* ------------------------------------------------------------------ *)
(** ** The component around the callback *)

(** What [TreemapChart] renders, by its visible content: the four returns
    of the component.  The chart carries the tree it draws and the
    [darker] modifier of its label colours. *)
Inductive view : Type :=
| ErrorMessage (text : string)
| ConfigurationRequired (items : list string)
| NoRecords (text : string)
| Chart (data : TreemapNode) (darker : Z).

(** The items of the list under "Configuration Required". *)
Definition missingFields (labelField valueField : option Field) : list string :=
  (match labelField with
   | None => ["Label Field - The field to use for item labels"]
   | Some _ => []
   end)
  ++ (match valueField with
      | None => ["Value Field - The numeric field to determine item sizes"]
      | Some _ => []
      end).

(** [TreemapChart]: the hooks hand in the records, the colour scheme, the
    values of the custom properties and the error state ([None] when there
    is none, else the error's message).  [useMemo] runs the callback before
    any of the returns is reached. *)
Definition TreemapChart (host : Host) (records : list Rec)
    (colorScheme : string) (title : option string)
    (labelField valueField groupByField : option Field)
    (errorState : option string) : outcome view :=
  let isDark := (colorScheme =? "dark")%string in
  data <- treemapData host records labelField valueField groupByField
                      (chartTitle title) ;;
  match errorState with
  | Some message =>
      Returns (ErrorMessage ("Error loading custom properties: " ++ message))
  | None =>
      match labelField, valueField with
      | Some _, Some _ =>
          match records with
          | [] => Returns (NoRecords "No records found in the table.")
          | _ :: _ => Returns (Chart data (if isDark then -3 else 3))
          end
      | _, _ =>
          Returns (ConfigurationRequired (missingFields labelField valueField))
      end
  end.

(** *** The label of a leaf *)

Definition newline : string := String (ascii_of_nat 10) EmptyString.

(** [id.length > 10 ? id.slice(0, 10) + "..." : id].  A character of the
    model stands for a UTF-16 code unit. *)
Definition shownId (nodeId : string) : string :=
  if (10 <? String.length nodeId)%nat
  then (substring 0 10 nodeId ++ "...")%string
  else nodeId.

(** [`${value}`] *)
Definition valueText (v : option prim) : string :=
  match v with
  | None => "undefined"
  | Some PNaN => "NaN"
  | Some (PNumber z) => numberToString z
  | Some (PString s) => s
  end.

(** The [label] function handed to the chart: the shown id, the line
    breaks and indentation of the template, and the value in brackets. *)
Definition nodeLabel (data : TreemapNode) : string :=
  (shownId (id data)
   ++ newline ++ "            "
   ++ newline ++ "            "
   ++ newline ++ "(" ++ valueText (value data) ++ ")")%string.

(* ------------------------------------------------------------------ *)
(** ** The custom properties ([customProperties.ts]) *)

(** The field types the predicates name, and any other. *)
Inductive FieldType : Type :=
| SINGLE_LINE_TEXT
| FORMULA
| SINGLE_SELECT
| NUMBER
| CURRENCY
| PERCENT
| COUNT
| ROLLUP
| OtherFieldType (name : string).

(** A field of a table, as the predicates see it: [{ id, config: { type } }]. *)
Record TableField : Type := mkTableField {
  fieldId : string;
  configType : FieldType
}.

Record Table : Type := mkTable {
  fields : list TableField
}.

Record Base : Type := mkBase {
  tables : list Table
}.

Definition isTextField (field : TableField) : bool :=
  match configType field with
  | SINGLE_LINE_TEXT | FORMULA | SINGLE_SELECT => true
  | _ => false
  end.

Definition isNumberField (field : TableField) : bool :=
  match configType field with
  | NUMBER | CURRENCY | PERCENT | COUNT | ROLLUP | FORMULA => true
  | _ => false
  end.

Definition isCategoryField (field : TableField) : bool :=
  match configType field with
  | SINGLE_SELECT | SINGLE_LINE_TEXT => true
  | _ => false
  end.

(** An entry of the list [getCustomProperties] returns. *)
Inductive CustomProperty : Type :=
| StringProperty (key label defaultValue : string)
| FieldProperty (key label : string) (table : Table)
    (shouldFieldBeAllowed : TableField -> bool)
    (defaultValue : option TableField).

(** [getCustomProperties].  [base.tables[0]] is [undefined] for a base
    without tables, and reading its [fields] throws. *)
Definition getCustomProperties (base : Base) : outcome (list CustomProperty) :=
  match tables base with
  | [] => Throws
  | table :: _ =>
      let textFields := filter isTextField (fields table) in
      let numberFields := filter isNumberField (fields table) in
      let categoryFields := filter isCategoryField (fields table) in
      Returns
        [ StringProperty "title" "Chart Title" "Company revenue map";
          FieldProperty "labelField" "Label Field" table isTextField
                        (hd_error textFields);
          FieldProperty "valueField" "Value Field (Size)" table isNumberField
                        (hd_error numberFields);
          FieldProperty "groupByField" "Group By Field (Optional)" table
                        isCategoryField (hd_error categoryFields) ]
  end.

(** The default field of the property with the given key. *)
Fixpoint defaultField (key : string) (properties : list CustomProperty)
    : option TableField :=
  match properties with
  | [] => None
  | FieldProperty k _ _ _ d :: rest =>
      if (k =? key)%string then d else defaultField key rest
  | StringProperty _ _ _ :: rest => defaultField key rest
  end.

(** A base whose first table has a note, a revenue, a name and a sector. *)
Definition sampleBase : Base :=
  mkBase [ mkTable [ mkTableField "fldNotes" (OtherFieldType "multilineText");
                     mkTableField "fldRevenue" CURRENCY;
                     mkTableField "fldName" SINGLE_LINE_TEXT;
                     mkTableField "fldSector" SINGLE_SELECT ] ].

(* ------------------------------------------------------------------ *)
(** ** The single-file version of the component *)

(** The same component written as one file: its callback keeps one leaf per
    record, under the record's id, and does not add values up. *)
Module Monolith.

Inductive TreemapNode : Type := mkNode {
  id : string;
  name : string;
  value : option Z;
  color : option string;
  children : option (list TreemapNode)
}.

Definition childrenOf (n : TreemapNode) : list TreemapNode :=
  match children n with
  | Some nodes => nodes
  | None => []
  end.

Definition groupsObject : Type := object (list TreemapNode).

Definition itemsOf (groups : groupsObject) (g : string) : list TreemapNode :=
  match getOwn groups g with
  | Some items => items
  | None => []
  end.

Section Callback.
Variable host : Host.
Variables labelField valueField : Field.

(** [{ id: record.id, name: label, value: Math.max(value, 0), color }] *)
Definition nodeOf (groupColor : option string) (record : Rec) : TreemapNode :=
  mkNode (recId record) (label labelField record)
         (Some (clamped valueField record)) groupColor None.

Section Grouped.
Variable groupByField : Field.

Definition groupedNode (record : Rec) : TreemapNode :=
  nodeOf (groupColor host groupByField record) record.

(** [if (!groups[groupName]) groups[groupName] = []] *)
Definition initGroup (groups : groupsObject) (g : string) : groupsObject :=
  match Get groups g with
  | Own _ => groups
  | Inherited _ => groups
  | Undefined => putOwn groups g []
  end.

(** [groups[groupName].push(node)].  A member of [Object.prototype] has no
    [push]: the call throws a [TypeError]. *)
Definition pushNode (groups : groupsObject) (g : string) (node : TreemapNode)
    : outcome groupsObject :=
  match Get groups g with
  | Own items => Returns (putOwn groups g (items ++ [node]))
  | Inherited _ => Throws
  | Undefined => Throws
  end.

Definition groupRecord (groups : groupsObject) (record : Rec)
    : outcome groupsObject :=
  let g := groupName host groupByField record in
  pushNode (initGroup groups g) g (groupedNode record).

Fixpoint groupRecords (groups : groupsObject) (records : list Rec)
    : outcome groupsObject :=
  match records with
  | [] => Returns groups
  | record :: rest =>
      groups1 <- groupRecord groups record ;;
      groupRecords groups1 rest
  end.

(** [items[0]?.color] *)
Definition firstColor (items : list TreemapNode) : option string :=
  match items with
  | [] => None
  | n :: _ => color n
  end.

Definition branch (e : string * list TreemapNode) : TreemapNode :=
  mkNode (fst e) (fst e) None (firstColor (snd e)) (Some (snd e)).

End Grouped.
End Callback.

Definition root (nodes : list TreemapNode) : TreemapNode :=
  mkNode "root" "root" None None (Some nodes).

Definition treemapData (host : Host) (records : list Rec)
    (labelField valueField groupByField : option Field)
    : outcome TreemapNode :=
  match labelField, valueField, records with
  | Some lf, Some vf, _ :: _ =>
      match groupByField with
      | Some gf =>
          groups <- groupRecords host lf vf gf [] records ;;
          Returns (root (map branch (Object_entries groups)))
      | None => Returns (root (map (nodeOf lf vf None) records))
      end
  | _, _, _ => Returns (root [])
  end.

(** The loop body as one write to [groups]. *)
Definition groupStep (host : Host) (lf vf gf : Field)
    (groups : groupsObject) (r : Rec) : groupsObject :=
  putOwn groups (groupName host gf r)
         (itemsOf groups (groupName host gf r)
          ++ [groupedNode host lf vf gf r]).

Definition groupRun (host : Host) (lf vf gf : Field) (records : list Rec)
    : groupsObject :=
  fold_left (groupStep host lf vf gf) records [].

(** The sum of the [value]s of a list of leaves. *)
Fixpoint sumOfValues (nodes : list TreemapNode) : Z :=
  match nodes with
  | [] => 0
  | n :: rest =>
      match value n with Some z => z | None => 0 end + sumOfValues rest
  end.

End Monolith.

(* ------------------------------------------------------------------ *)
(** ** Facts about objects *)

Lemma arrayIndex_injective (k k' : string) (n : N) :
  arrayIndex k = Some n -> arrayIndex k' = Some n -> k = k'.
Proof.
  unfold arrayIndex.
  destruct (NilZero.uint_of_string k) as [d|]; [|discriminate].
  destruct (NilZero.uint_of_string k') as [d'|]; [|discriminate].
  cbv zeta.
  destruct (String.eqb_spec
              (NilZero.string_of_uint (N.to_uint (N.of_uint d))) k)
    as [Hk|]; [|discriminate].
  destruct (String.eqb_spec
              (NilZero.string_of_uint (N.to_uint (N.of_uint d'))) k')
    as [Hk'|]; [|discriminate].
  simpl.
  destruct (N.of_uint d <=? maxArrayIndex)%N; [|discriminate].
  destruct (N.of_uint d' <=? maxArrayIndex)%N; [|discriminate].
  intros H1 H2. injection H1 as H1. injection H2 as H2.
  rewrite <- Hk, <- Hk'. congruence.
Qed.

Section ObjectFacts.
Variable V : Type.
Implicit Types (o : object V) (k : string) (v : V).

Lemma getOwn_In o k v : getOwn o k = Some v -> In (k, v) o.
Proof.
  induction o as [|[k' v'] o IH]; simpl; [discriminate|].
  destruct (String.eqb_spec k' k) as [->|Hne].
  - intros [= ->]. now left.
  - intros H. right. now apply IH.
Qed.

Lemma getOwn_None o k : getOwn o k = None <-> ~ In k (keys o).
Proof.
  induction o as [|[k' v'] o IH]; simpl.
  - split; [intros _ []|reflexivity].
  - destruct (String.eqb_spec k' k) as [->|Hne].
    + split; [discriminate|]. intros H. exfalso. apply H. now left.
    + rewrite IH. split.
      * intros H [E|HI]; [now apply Hne|now apply H].
      * intros H HI. apply H. now right.
Qed.

Lemma getOwn_Some_key o k v : getOwn o k = Some v -> In k (keys o).
Proof.
  intros H. apply getOwn_In in H. unfold keys.
  change k with (fst (k, v)). now apply in_map.
Qed.

Lemma In_keys_getOwn o k : In k (keys o) -> exists v, getOwn o k = Some v.
Proof.
  intros H. destruct (getOwn o k) as [v|] eqn:E.
  - now exists v.
  - apply getOwn_None in E. contradiction.
Qed.

Lemma getOwn_NoDup_In o k v :
  NoDup (keys o) -> In (k, v) o -> getOwn o k = Some v.
Proof.
  induction o as [|[k' v'] o IH]; simpl; [intros _ []|].
  intros Hnd [E|HI].
  - injection E as -> ->. now rewrite String.eqb_refl.
  - inversion Hnd as [|? ? Hnot Hnd']; subst.
    destruct (String.eqb_spec k' k) as [->|Hne].
    + exfalso. apply Hnot. change k with (fst (k, v)). now apply in_map.
    + now apply IH.
Qed.

Lemma getOwn_putOwn_same o k v : getOwn (putOwn o k v) k = Some v.
Proof.
  induction o as [|[k' v'] o IH]; simpl.
  - now rewrite String.eqb_refl.
  - destruct (String.eqb_spec k' k) as [->|Hne]; simpl.
    + now rewrite String.eqb_refl.
    + destruct (String.eqb_spec k' k); [contradiction|exact IH].
Qed.

Lemma getOwn_putOwn_other o k k' v :
  k <> k' -> getOwn (putOwn o k v) k' = getOwn o k'.
Proof.
  intros Hne. induction o as [|[k0 v0] o IH]; simpl.
  - destruct (String.eqb_spec k k'); [contradiction|reflexivity].
  - destruct (String.eqb_spec k0 k) as [->|Hne0]; simpl.
    + destruct (String.eqb_spec k k'); [contradiction|reflexivity].
    + now rewrite IH.
Qed.

Lemma keys_putOwn_old o k v :
  In k (keys o) -> keys (putOwn o k v) = keys o.
Proof.
  induction o as [|[k0 v0] o IH]; simpl; [intros []|].
  destruct (String.eqb_spec k0 k) as [->|Hne]; simpl.
  - reflexivity.
  - intros [E|HI]; [contradiction|]. f_equal. now apply IH.
Qed.

Lemma keys_putOwn_new o k v :
  ~ In k (keys o) -> keys (putOwn o k v) = keys o ++ [k].
Proof.
  induction o as [|[k0 v0] o IH]; simpl; [reflexivity|].
  intros Hnot.
  destruct (String.eqb_spec k0 k) as [->|Hne]; simpl.
  - exfalso. apply Hnot. now left.
  - f_equal. apply IH. intros HI. apply Hnot. now right.
Qed.

Lemma putOwn_same o k v : getOwn o k = Some v -> putOwn o k v = o.
Proof.
  induction o as [|[k0 v0] o IH]; simpl; [discriminate|].
  destruct (String.eqb_spec k0 k) as [->|Hne].
  - now intros [= ->].
  - intros H. f_equal. now apply IH.
Qed.

Lemma putOwn_putOwn o k v v' : putOwn (putOwn o k v) k v' = putOwn o k v'.
Proof.
  induction o as [|[k0 v0] o IH]; simpl.
  - now rewrite String.eqb_refl.
  - destruct (String.eqb_spec k0 k) as [->|Hne]; simpl.
    + now rewrite String.eqb_refl.
    + destruct (String.eqb_spec k0 k); [contradiction|]. now rewrite IH.
Qed.

(** What a read finds, by the kind of key. *)
Lemma Get_own o k v : getOwn o k = Some v -> Get o k = Own v.
Proof. unfold Get. now intros ->. Qed.

Lemma Get_undefined o k :
  getOwn o k = None -> isInherited k = false -> Get o k = Undefined.
Proof.
  unfold Get, isInherited. intros ->.
  destruct (objectPrototype k); [discriminate|reflexivity].
Qed.

Lemma Get_inherited o k m :
  getOwn o k = None -> objectPrototype k = Some m -> Get o k = Inherited m.
Proof. unfold Get. now intros -> ->. Qed.

End ObjectFacts.

(* ------------------------------------------------------------------ *)
(** ** The order of [Object.entries] *)

Section EntriesFacts.
Variable V : Type.
Implicit Types (o : object V) (l : list (N * (string * V))).

Lemma insertAscending_perm x l : Permutation (insertAscending x l) (x :: l).
Proof.
  induction l as [|y l IH]; simpl; [reflexivity|].
  destruct (fst x <=? fst y)%N; [reflexivity|].
  rewrite IH. apply perm_swap.
Qed.

Lemma ascending_perm l : Permutation (ascending l) l.
Proof.
  induction l as [|x l IH]; simpl; [reflexivity|].
  rewrite insertAscending_perm. now apply perm_skip.
Qed.

Lemma insertAscending_sorted x l :
  StronglySorted (fun a b => (fst a <= fst b)%N) l ->
  StronglySorted (fun a b => (fst a <= fst b)%N) (insertAscending x l).
Proof.
  induction l as [|y l IH]; simpl; intros Hs.
  - constructor; constructor.
  - inversion Hs as [|? ? Hs' Hall]; subst.
    destruct (N.leb_spec (fst x) (fst y)) as [Hle|Hgt].
    + constructor; [assumption|].
      constructor; [assumption|].
      eapply Forall_impl; [|exact Hall]. simpl. intros a Ha. lia.
    + constructor; [now apply IH|].
      apply (Permutation_Forall (Permutation_sym (insertAscending_perm x l))).
      constructor; [lia|assumption].
Qed.

Lemma ascending_sorted l :
  StronglySorted (fun a b => (fst a <= fst b)%N) (ascending l).
Proof.
  induction l as [|x l IH]; simpl; [constructor|].
  now apply insertAscending_sorted.
Qed.

Lemma indexed_named_perm o : Permutation (map snd (indexed o) ++ named o) o.
Proof.
  unfold named, isArrayIndex.
  induction o as [|kv o IH]; simpl; [reflexivity|].
  destruct (arrayIndex (fst kv)); simpl.
  - now apply perm_skip.
  - symmetry. apply Permutation_cons_app. now symmetry.
Qed.

Lemma Object_entries_perm o : Permutation (Object_entries o) o.
Proof.
  unfold Object_entries.
  rewrite (Permutation_map snd (ascending_perm (indexed o))).
  apply indexed_named_perm.
Qed.

Lemma Object_entries_In o e : In e (Object_entries o) <-> In e o.
Proof.
  split; apply Permutation_in;
    [apply Object_entries_perm|symmetry; apply Object_entries_perm].
Qed.

Lemma keys_Object_entries_perm o :
  Permutation (keys (Object_entries o)) (keys o).
Proof. apply Permutation_map, Object_entries_perm. Qed.

Lemma NoDup_keys_Object_entries o :
  NoDup (keys o) -> NoDup (keys (Object_entries o)).
Proof.
  apply Permutation_NoDup. symmetry. apply keys_Object_entries_perm.
Qed.

Lemma indexed_nil o :
  Forall (fun k => isArrayIndex k = false) (keys o) -> indexed o = [].
Proof.
  unfold keys, isArrayIndex.
  induction o as [|kv o IH]; [reflexivity|].
  intros Hall. apply Forall_cons_iff in Hall. destruct Hall as [Hk Hall].
  simpl. destruct (arrayIndex (fst kv)); [discriminate|]. now apply IH.
Qed.

Lemma named_all o :
  Forall (fun k => isArrayIndex k = false) (keys o) -> named o = o.
Proof.
  unfold keys, named.
  induction o as [|kv o IH]; [reflexivity|].
  intros Hall. apply Forall_cons_iff in Hall. destruct Hall as [Hk Hall].
  simpl. rewrite Hk. simpl. f_equal. now apply IH.
Qed.

(** An object without array-index keys is enumerated in creation order. *)
Lemma Object_entries_named o :
  Forall (fun k => isArrayIndex k = false) (keys o) ->
  Object_entries o = o.
Proof.
  intros Hall. unfold Object_entries.
  now rewrite indexed_nil, named_all.
Qed.

Lemma keys_named o :
  keys (named o) = filter (fun k => negb (isArrayIndex k)) (keys o).
Proof.
  unfold named, keys. induction o as [|kv o IH]; simpl; [reflexivity|].
  destruct (isArrayIndex (fst kv)); simpl; now rewrite IH.
Qed.

Lemma keys_indexed o :
  map (fun x => fst (snd x)) (indexed o) = filter isArrayIndex (keys o).
Proof.
  unfold keys, isArrayIndex. induction o as [|kv o IH]; simpl; [reflexivity|].
  destruct (arrayIndex (fst kv)); simpl; now rewrite IH.
Qed.

Lemma indexed_fst o :
  Forall (fun x => arrayIndex (fst (snd x)) = Some (fst x)) (indexed o).
Proof.
  induction o as [|kv o IH]; simpl; [constructor|].
  destruct (arrayIndex (fst kv)) eqn:E; [constructor|]; assumption.
Qed.

Lemma sorted_keys l :
  Forall (fun x => arrayIndex (fst (snd x)) = Some (fst x)) l ->
  NoDup (map (fun x => fst (snd x)) l) ->
  StronglySorted (fun a b => (fst a <= fst b)%N) l ->
  StronglySorted (fun a b => (indexValue a < indexValue b)%N)
                 (map (fun x => fst (snd x)) l).
Proof.
  induction l as [|x l IH]; simpl; intros Hidx Hnd Hs; [constructor|].
  inversion Hidx as [|? ? Hx Hidx']; subst.
  inversion Hnd as [|? ? Hnot Hnd']; subst.
  inversion Hs as [|? ? Hs' Hall]; subst.
  constructor; [now apply IH|].
  rewrite Forall_map. rewrite Forall_forall in Hall, Hidx' |- *.
  intros y Hy. unfold indexValue. rewrite Hx, (Hidx' y Hy).
  specialize (Hall y Hy).
  destruct (N.eq_dec (fst x) (fst y)) as [E|]; [|lia].
  exfalso. apply Hnot.
  assert (Hk : fst (snd x) = fst (snd y)).
  { apply (arrayIndex_injective _ _ Hx). rewrite E. now apply Hidx'. }
  rewrite Hk. now apply (in_map (fun z => fst (snd z))).
Qed.

Theorem Object_entries_order o :
  NoDup (keys o) -> enumerationOrder (keys o) (keys (Object_entries o)).
Proof.
  intros Hnd.
  exists (map (fun x => fst (snd x)) (ascending (indexed o))).
  assert (Hp : Permutation
                 (map (fun x => fst (snd x)) (ascending (indexed o)))
                 (filter isArrayIndex (keys o))).
  { rewrite <- keys_indexed. apply Permutation_map, ascending_perm. }
  split; [|split].
  - unfold Object_entries, keys. rewrite map_app, map_map.
    f_equal. apply keys_named.
  - exact Hp.
  - apply sorted_keys.
    + apply (Permutation_Forall (Permutation_sym (ascending_perm _))).
      apply indexed_fst.
    + apply (Permutation_NoDup (Permutation_sym Hp)).
      now apply NoDup_filter.
    + apply ascending_sorted.
Qed.

End EntriesFacts.

(* ------------------------------------------------------------------ *)
(** ** Sums, first occurrences and totals *)

Lemma sumZ_app (l l' : list Z) : sumZ (l ++ l') = sumZ l + sumZ l'.
Proof. induction l as [|z l IH]; simpl; [reflexivity|]. rewrite IH. lia. Qed.

Lemma sumZ_nonneg (l : list Z) : Forall (fun z => 0 <= z) l -> 0 <= sumZ l.
Proof. induction 1; simpl; lia. Qed.

Lemma sumZ_perm (l l' : list Z) : Permutation l l' -> sumZ l = sumZ l'.
Proof. induction 1; simpl; lia. Qed.

Lemma firstSeen_In (l : list string) (x : string) :
  In x (firstSeen l) <-> In x l.
Proof.
  induction l as [|y l IH]; simpl; [reflexivity|].
  rewrite filter_In, IH.
  destruct (String.eqb_spec x y) as [->|Hne]; simpl.
  - split; [intros _|]; now left.
  - split.
    + intros [E|[HI _]]; [now left|now right].
    + intros [E|HI]; [now left|right; now split].
Qed.

Lemma firstSeen_NoDup (l : list string) : NoDup (firstSeen l).
Proof.
  induction l as [|y l IH]; simpl; constructor.
  - rewrite filter_In. intros [_ H]. now rewrite String.eqb_refl in H.
  - now apply NoDup_filter.
Qed.

Lemma firstSeen_snoc_new (l : list string) (x : string) :
  ~ In x l -> firstSeen (l ++ [x]) = firstSeen l ++ [x].
Proof.
  induction l as [|y l IH]; simpl; [reflexivity|].
  intros Hnot.
  assert (Hy : x <> y) by (intros ->; apply Hnot; now left).
  rewrite IH by (intros H; apply Hnot; now right).
  rewrite filter_app. simpl.
  destruct (String.eqb_spec x y); [contradiction|reflexivity].
Qed.

Lemma firstSeen_snoc_old (l : list string) (x : string) :
  In x l -> firstSeen (l ++ [x]) = firstSeen l.
Proof.
  induction l as [|y l IH]; simpl; [intros []|].
  intros Hx. f_equal.
  destruct (in_dec string_dec x l) as [HI|Hnot].
  - now rewrite IH.
  - destruct Hx as [->|]; [|contradiction].
    rewrite firstSeen_snoc_new, filter_app by assumption.
    simpl. rewrite String.eqb_refl. simpl. apply app_nil_r.
Qed.

Lemma clamped_nonneg (valueField : Field) (r : Rec) : 0 <= clamped valueField r.
Proof. unfold clamped. lia. Qed.

Lemma labelTotal_nonneg (lf vf : Field) (l : string) (rs : list Rec) :
  0 <= labelTotal lf vf l rs.
Proof.
  unfold labelTotal. apply sumZ_nonneg. rewrite Forall_map.
  apply Forall_forall. intros r _. apply clamped_nonneg.
Qed.

Lemma labelTotal_snoc (lf vf : Field) (l : string) (rs : list Rec) (r : Rec) :
  labelTotal lf vf l (rs ++ [r]) =
  labelTotal lf vf l rs
  + (if (label lf r =? l)%string then clamped vf r else 0).
Proof.
  unfold labelTotal. rewrite filter_app, map_app, sumZ_app. simpl.
  destruct (label lf r =? l)%string; simpl; lia.
Qed.

Lemma labelTotal_absent (lf vf : Field) (l : string) (rs : list Rec) :
  ~ In l (map (label lf) rs) -> labelTotal lf vf l rs = 0.
Proof.
  unfold labelTotal. induction rs as [|r rs IH]; simpl; [reflexivity|].
  intros Hnot. destruct (String.eqb_spec (label lf r) l) as [E|Hne].
  - exfalso. apply Hnot. now left.
  - apply IH. intros H. apply Hnot. now right.
Qed.

Lemma objectPrototype_proto (k : string) :
  objectPrototype k = Some InhProtoAccessor <-> k = "__proto__".
Proof.
  unfold objectPrototype. destruct (String.eqb_spec k "__proto__") as [->|Hne].
  - split; reflexivity.
  - split; [|contradiction].
    destruct (k =? "constructor")%string; [discriminate|].
    destruct (existsb (String.eqb k) objectPrototypeMethods); discriminate.
Qed.

(* ------------------------------------------------------------------ *)
(** ** The run without a group field *)

Section UngroupedFacts.
Variable host : Host.
Variables labelField valueField : Field.

Local Abbreviation labelOf := (label labelField).
Local Abbreviation amount := (clamped valueField).
Local Abbreviation step := (aggregateRecord host labelField valueField).
Local Abbreviation run := (aggregate host labelField valueField).
Local Abbreviation total := (labelTotal labelField valueField).

Implicit Types (agg : object prim) (r : Rec) (rs : list Rec).

(** One record, by what the read of its label finds. *)
Lemma aggregateRecord_own agg r p :
  getOwn agg (labelOf r) = Some p ->
  step agg r =
  putOwn agg (labelOf r)
         (plusNumber (if truthy p then p else PNumber 0) (amount r)).
Proof.
  intros Hg. unfold aggregateRecord, initLabel, addToLabel.
  rewrite (Get_own _ _ Hg). destruct (truthy p).
  - now rewrite (Get_own _ _ Hg).
  - rewrite (Get_own _ _ (getOwn_putOwn_same agg _ _)).
    apply putOwn_putOwn.
Qed.

Lemma aggregateRecord_fresh agg r :
  getOwn agg (labelOf r) = None -> isInherited (labelOf r) = false ->
  step agg r = putOwn agg (labelOf r) (PNumber (0 + amount r)).
Proof.
  intros Hg Hi. unfold aggregateRecord, initLabel, addToLabel.
  rewrite (Get_undefined _ _ Hg Hi).
  rewrite (Get_own _ _ (getOwn_putOwn_same agg _ _)).
  apply putOwn_putOwn.
Qed.

Lemma aggregateRecord_method agg r name :
  getOwn agg (labelOf r) = None ->
  objectPrototype (labelOf r) = Some (InhFunction name) ->
  step agg r =
  putOwn agg (labelOf r)
         (PString (nativeFunctionSource host name
                   ++ numberToString (amount r))%string).
Proof.
  intros Hg Hi. unfold aggregateRecord, initLabel, addToLabel.
  now rewrite !(Get_inherited _ _ Hg Hi).
Qed.

Lemma aggregateRecord_proto agg r :
  getOwn agg (labelOf r) = None -> labelOf r = "__proto__" ->
  step agg r = agg.
Proof.
  intros Hg Hl. apply objectPrototype_proto in Hl.
  unfold aggregateRecord, initLabel, addToLabel.
  now rewrite !(Get_inherited _ _ Hg Hl).
Qed.

Lemma aggregateRecord_shape agg r :
  step agg r = agg
  \/ exists p, step agg r = putOwn agg (labelOf r) p.
Proof.
  destruct (getOwn agg (labelOf r)) as [p|] eqn:Hg.
  - right. eexists. exact (aggregateRecord_own _ _ Hg).
  - destruct (objectPrototype (labelOf r)) as [[name|]|] eqn:Hi.
    + right. eexists. exact (aggregateRecord_method _ _ Hg Hi).
    + left. apply aggregateRecord_proto; [assumption|].
      now apply objectPrototype_proto.
    + right. eexists. apply aggregateRecord_fresh; [assumption|].
      unfold isInherited. now rewrite Hi.
Qed.

Lemma aggregateRecord_other agg r l :
  l <> labelOf r -> getOwn (step agg r) l = getOwn agg l.
Proof.
  intros Hne. destruct (aggregateRecord_shape agg r) as [->|[p ->]].
  - reflexivity.
  - apply getOwn_putOwn_other. congruence.
Qed.

Lemma aggregate_snoc rs r :
  run (rs ++ [r]) = step (run rs) r.
Proof. unfold aggregate. now rewrite fold_left_app. Qed.

(** The own keys of [aggregated]: the labels at their first occurrence,
    but for [__proto__], which never becomes an own property. *)
Lemma keys_aggregate rs :
  keys (run rs) =
  firstSeen (filter (fun l => negb (l =? "__proto__")%string) (map labelOf rs)).
Proof.
  induction rs as [|r rs IH] using rev_ind; [reflexivity|].
  rewrite aggregate_snoc, map_app, filter_app. simpl.
  destruct (String.eqb_spec (labelOf r) "__proto__") as [E|Hne]; simpl.
  - rewrite app_nil_r, <- IH. f_equal.
    apply aggregateRecord_proto; [|assumption].
    apply getOwn_None. rewrite IH, firstSeen_In, filter_In, E.
    rewrite String.eqb_refl. intros [_ H]. discriminate.
  - destruct (getOwn (run rs) (labelOf r)) as [p|] eqn:Hg.
    + pose proof (getOwn_Some_key _ _ Hg) as HI.
      rewrite (aggregateRecord_own _ _ Hg), keys_putOwn_old by assumption.
      rewrite firstSeen_snoc_old; [assumption|].
      now rewrite IH, firstSeen_In in HI.
    + assert (Hnot : ~ In (labelOf r) (keys (run rs)))
        by now apply getOwn_None.
      rewrite firstSeen_snoc_new
        by (now rewrite IH, firstSeen_In in Hnot).
      rewrite <- IH.
      destruct (aggregateRecord_shape (run rs) r) as [E|[p ->]].
      * exfalso.
        destruct (objectPrototype (labelOf r)) as [[name|]|] eqn:Hi.
        -- rewrite (aggregateRecord_method _ _ Hg Hi) in E.
           apply (f_equal (fun o => getOwn o (labelOf r))) in E.
           rewrite getOwn_putOwn_same, Hg in E. discriminate.
        -- now apply Hne, objectPrototype_proto.
        -- rewrite aggregateRecord_fresh in E;
             [|assumption|unfold isInherited; now rewrite Hi].
           apply (f_equal (fun o => getOwn o (labelOf r))) in E.
           rewrite getOwn_putOwn_same, Hg in E. discriminate.
      * now apply keys_putOwn_new.
Qed.

Lemma NoDup_keys_aggregate rs : NoDup (keys (run rs)).
Proof. rewrite keys_aggregate. apply firstSeen_NoDup. Qed.

Lemma getOwn_aggregate_absent rs l :
  ~ In l (map labelOf rs) -> getOwn (run rs) l = None.
Proof.
  intros Hnot. apply getOwn_None.
  rewrite keys_aggregate, firstSeen_In, filter_In. now intros [H _].
Qed.

(** The value of [aggregated] at a labelOf that names no member of
    [Object.prototype]: the total of the records carrying it. *)
Lemma getOwn_aggregate rs l :
  isInherited l = false -> In l (map labelOf rs) ->
  getOwn (run rs) l = Some (PNumber (total l rs)).
Proof.
  intros Hi. induction rs as [|r rs IH] using rev_ind; [intros []|].
  rewrite aggregate_snoc, labelTotal_snoc, map_app. simpl. intros HI.
  destruct (String.eqb_spec (labelOf r) l) as [E|Hne].
  - subst l.
    destruct (in_dec string_dec (labelOf r) (map labelOf rs)) as [Hold|Hnew].
    + specialize (IH Hold).
      rewrite (aggregateRecord_own _ _ IH), getOwn_putOwn_same.
      simpl. destruct (Z.eqb_spec (total (labelOf r) rs) 0) as [->|];
        reflexivity.
    + rewrite aggregateRecord_fresh, getOwn_putOwn_same;
        [|now apply getOwn_aggregate_absent|assumption].
      now rewrite labelTotal_absent.
  - rewrite aggregateRecord_other by congruence.
    rewrite Z.add_0_r. apply IH.
    apply in_app_or in HI. destruct HI as [HI|[E|[]]]; [assumption|].
    now contradiction Hne.
Qed.

End UngroupedFacts.

(* ------------------------------------------------------------------ *)
(** ** Leaves and sums *)

Lemma leaves_eq (agg : object prim) :
  leaves agg = map leafOf (Object_entries agg).
Proof. reflexivity. Qed.

Lemma ids_leaves (agg : object prim) :
  map id (leaves agg) = keys (Object_entries agg).
Proof. unfold leaves, keys. rewrite map_map. reflexivity. Qed.

Lemma sumOfValues_numbers (f : string -> Z) (l : list (string * prim)) :
  Forall (fun e => snd e = PNumber (f (fst e))) l ->
  sumOfValues (map leafOf l) = Some (sumZ (map f (map fst l))).
Proof.
  induction 1 as [|e l He _ IH]; simpl; [reflexivity|].
  unfold leafNumber. simpl. now rewrite He, IH.
Qed.

Lemma numericContributions_clamped (vf : Field) (rs : list Rec) :
  sumZ (numericContributions vf rs) = sumZ (map (clamped vf) rs).
Proof.
  unfold numericContributions, clamped, rawNumber.
  induction rs as [|r rs IH]; simpl; [reflexivity|].
  rewrite sumZ_app, IH. destruct (getCellValue r vf); simpl; lia.
Qed.

Section Totals.
Variables labelField valueField : Field.

Lemma labelTotal_cons (l : string) (r : Rec) (rs : list Rec) :
  labelTotal labelField valueField l (r :: rs) =
  (if (label labelField r =? l)%string then clamped valueField r else 0)
  + labelTotal labelField valueField l rs.
Proof.
  unfold labelTotal. simpl.
  destruct (label labelField r =? l)%string; reflexivity.
Qed.

Lemma sum_indicator (ks : list string) (k : string) (c : Z) :
  NoDup ks -> In k ks ->
  sumZ (map (fun k' => if (k =? k')%string then c else 0) ks) = c.
Proof.
  induction 1 as [|x ks Hnot Hnd IH]; simpl; [intros []|].
  intros [->|HI].
  - rewrite String.eqb_refl.
    assert (Hz : sumZ (map (fun k' => if (k =? k')%string then c else 0) ks)
                 = 0).
    { clear IH Hnd. induction ks as [|y ks IHk]; simpl; [reflexivity|].
      destruct (String.eqb_spec k y) as [->|].
      - exfalso. apply Hnot. now left.
      - apply IHk. intros H. apply Hnot. now right. }
    lia.
  - destruct (String.eqb_spec k x) as [->|]; [contradiction|].
    now rewrite IH.
Qed.

(** Summing the per-label totals over distinct keys that cover the labels
    gives the sum over the records. *)
Lemma sum_labelTotal (ks : list string) (rs : list Rec) :
  NoDup ks ->
  (forall r, In r rs -> In (label labelField r) ks) ->
  sumZ (map (fun k => labelTotal labelField valueField k rs) ks) =
  sumZ (map (clamped valueField) rs).
Proof.
  intros Hnd. induction rs as [|r rs IH]; intros Hcov.
  - simpl. induction ks as [|k ks IHk]; simpl; [reflexivity|].
    inversion Hnd; subst. now rewrite IHk.
  - simpl. rewrite <- IH by (intros r' Hr'; apply Hcov; now right).
    rewrite <- (@sum_indicator ks (label labelField r)
                  (clamped valueField r) Hnd (Hcov r (or_introl eq_refl))).
    clear IH Hcov Hnd.
    induction ks as [|k ks IHk]; simpl; [reflexivity|].
    rewrite labelTotal_cons. lia.
Qed.
End Totals.

Section UngroupedTree.
Variable host : Host.
Variables labelField valueField : Field.

Local Abbreviation labelOf := (label labelField).
Local Abbreviation run := (aggregate host labelField valueField).
Local Abbreviation total := (labelTotal labelField valueField).

(** Where no label names a member of [Object.prototype], every own
    property of [aggregated] holds the total of its label. *)
Lemma aggregate_entries (rs : list Rec) :
  (forall r, In r rs -> isInherited (labelOf r) = false) ->
  Forall (fun e => snd e = PNumber (total (fst e) rs)) (run rs).
Proof.
  intros Hin. apply Forall_forall. intros [k p] He. simpl.
  pose proof (getOwn_NoDup_In _ _ _
                (NoDup_keys_aggregate host labelField valueField rs) He) as Hg.
  assert (Hk : In k (map labelOf rs)).
  { destruct (in_dec string_dec k (map labelOf rs)) as [H|H]; [assumption|].
    rewrite (getOwn_aggregate_absent host labelField valueField rs k H) in Hg.
    discriminate. }
  assert (Hi : isInherited k = false).
  { apply in_map_iff in Hk. destruct Hk as [r [<- Hr]]. now apply Hin. }
  rewrite (getOwn_aggregate host labelField valueField rs k Hi Hk) in Hg.
  congruence.
Qed.

(** The leaves add up to the sum over the records. *)
Lemma leaves_sum (rs : list Rec) :
  (forall r, In r rs -> isInherited (labelOf r) = false) ->
  sumOfValues (leaves (run rs)) =
  Some (sumZ (numericContributions valueField rs)).
Proof.
  intros Hin. rewrite leaves_eq.
  rewrite (sumOfValues_numbers (fun k => total k rs)).
  - f_equal. rewrite numericContributions_clamped.
    rewrite (sumZ_perm
               (Permutation_map _ (keys_Object_entries_perm (run rs)))).
    apply sum_labelTotal.
    + apply NoDup_keys_aggregate.
    + intros r Hr. rewrite keys_aggregate, firstSeen_In, filter_In.
      split; [now apply in_map|].
      destruct (String.eqb_spec (labelOf r) "__proto__") as [E|];
        [|reflexivity].
      specialize (Hin r Hr). rewrite E in Hin. discriminate.
  - apply (Permutation_Forall
             (Permutation_sym (Object_entries_perm (run rs)))).
    now apply aggregate_entries.
Qed.

(** A label that names no member of [Object.prototype] has exactly its
    leaf, carrying the total of the records that bear it. *)
Lemma leaf_of_label (rs : list Rec) (l : string) :
  isInherited l = false -> In l (map labelOf rs) ->
  In (mkNode l (Some (PNumber (total l rs))) None None) (leaves (run rs)).
Proof.
  intros Hi Hl. rewrite leaves_eq.
  change (mkNode l (Some (PNumber (total l rs))) None None)
    with (leafOf (l, PNumber (total l rs))).
  apply in_map, Object_entries_In, getOwn_In.
  now apply getOwn_aggregate.
Qed.


Lemma leaves_order (rs : list Rec) :
  enumerationOrder
    (firstSeen (filter (fun l => negb (l =? "__proto__")%string)
                       (map labelOf rs)))
    (map id (leaves (run rs))).
Proof.
  rewrite ids_leaves, <- (keys_aggregate host labelField valueField rs).
  apply Object_entries_order, NoDup_keys_aggregate.
Qed.

End UngroupedTree.

(* ------------------------------------------------------------------ *)
(** ** The run with a group field *)

Section GroupedFacts.
Variable host : Host.
Variables labelField valueField groupByField : Field.

Local Abbreviation labelOf := (label labelField).
Local Abbreviation amount := (clamped valueField).
Local Abbreviation groupNameOf := (groupName host groupByField).
Local Abbreviation groupColorOf := (groupColor host groupByField).
Local Abbreviation body :=
  (groupRecord host labelField valueField groupByField).
Local Abbreviation loop :=
  (groupRecords host labelField valueField groupByField).
Local Abbreviation groupStep :=
  (groupStep host labelField valueField groupByField).

Implicit Types (groups : groupsObject) (r : Rec) (rs : list Rec).

Lemma Get_items (items : object item) (l : string) :
  match getOwn items l with
  | Some data => Get items l = Own data
  | None => if isInherited l
            then exists m, Get items l = Inherited m
            else Get items l = Undefined
  end.
Proof.
  unfold Get, isInherited. destruct (getOwn items l); [reflexivity|].
  destruct (objectPrototype l) as [m|]; [now exists m|reflexivity].
Qed.

(** With the group's own items at hand the body is [groupStep]. *)
Lemma body_on_items groups r (items : object item) :
  Get groups (groupNameOf r) = Own items ->
  getOwn groups (groupNameOf r) = Some items ->
  (bind (initItem groups (groupNameOf r) (labelOf r) (groupColorOf r))
        (fun groups1 =>
           addToItem groups1 (groupNameOf r) (labelOf r) (amount r)))
  = Returns (putOwn groups (groupNameOf r)
               (itemStep items (labelOf r) (groupColorOf r) (amount r))).
Proof.
  intros HG Hg. unfold initItem, addToItem, itemStep. rewrite HG.
  pose proof (Get_items items (labelOf r)) as Hl.
  destruct (getOwn items (labelOf r)) as [data|].
  - rewrite Hl. simpl. now rewrite HG, Hl.
  - destruct (isInherited (labelOf r)).
    + destruct Hl as [m Hl]. rewrite Hl. simpl. rewrite HG, Hl.
      now rewrite putOwn_same.
    + rewrite Hl. simpl.
      rewrite (Get_own _ _ (getOwn_putOwn_same groups _ _)).
      rewrite (Get_own _ _ (getOwn_putOwn_same items _ _)).
      now rewrite !putOwn_putOwn.
Qed.

Lemma body_returns groups r :
  getOwn groups (groupNameOf r) <> None
  \/ isInherited (groupNameOf r) = false ->
  body groups r = Returns (groupStep groups r).
Proof.
  intros H. unfold groupRecord, groupStep, itemsOf, initGroup.
  destruct (getOwn groups (groupNameOf r)) as [items|] eqn:Hg.
  - rewrite (Get_own _ _ Hg). now apply body_on_items; [apply Get_own|].
  - destruct H as [H|H]; [congruence|].
    rewrite (Get_undefined _ _ Hg H).
    rewrite (body_on_items (putOwn groups (groupNameOf r) []) r (items:=[])).
    + now rewrite putOwn_putOwn.
    + apply Get_own, getOwn_putOwn_same.
    + apply getOwn_putOwn_same.
Qed.

Lemma body_escapes groups r :
  getOwn groups (groupNameOf r) = None ->
  isInherited (groupNameOf r) = true ->
  body groups r = Escapes.
Proof.
  intros Hg Hi. unfold groupRecord, initGroup, initItem, isInherited in *.
  destruct (objectPrototype (groupNameOf r)) as [m|] eqn:Hm; [|discriminate].
  now rewrite !(Get_inherited _ _ Hg Hm).
Qed.

Lemma body_outcome groups r :
  body groups r = Returns (groupStep groups r) \/ body groups r = Escapes.
Proof.
  destruct (getOwn groups (groupNameOf r)) as [items|] eqn:Hg.
  - left. apply body_returns. left. congruence.
  - destruct (isInherited (groupNameOf r)) eqn:Hi.
    + right. now apply body_escapes.
    + left. apply body_returns. now right.
Qed.

(** Where no group name is a member of [Object.prototype] the loop is the
    fold of [groupStep]. *)
Lemma loop_returns rs : forall groups,
  (forall r, In r rs -> isInherited (groupNameOf r) = false) ->
  loop groups rs = Returns (fold_left groupStep rs groups).
Proof.
  induction rs as [|r rs IH]; simpl; intros groups Hin; [reflexivity|].
  rewrite body_returns by (right; apply Hin; now left). simpl.
  apply IH. intros r' Hr'. apply Hin. now right.
Qed.

(** A group name that is such a member makes the run escape. *)
Lemma loop_escapes rs : forall groups,
  (forall k, In k (keys groups) -> isInherited k = false) ->
  (exists r, In r rs /\ isInherited (groupNameOf r) = true) ->
  loop groups rs = Escapes.
Proof.
  induction rs as [|r rs IH]; simpl; intros groups Hk [r' [Hr' Hi]];
    [destruct Hr'|].
  destruct (isInherited (groupNameOf r)) eqn:Hr.
  - rewrite body_escapes; [reflexivity| |assumption].
    apply getOwn_None. intros HI. apply Hk in HI. congruence.
  - rewrite body_returns by now right. simpl. apply IH.
    + intros k HI. unfold groupStep in HI.
      destruct (in_dec string_dec (groupNameOf r) (keys groups)) as [Ho|Hn].
      * rewrite keys_putOwn_old in HI by assumption. now apply Hk.
      * rewrite keys_putOwn_new in HI by assumption.
        apply in_app_or in HI. destruct HI as [HI|[<-|[]]];
          [now apply Hk|assumption].
    + destruct Hr' as [->|Hr']; [congruence|]. now exists r'.
Qed.

End GroupedFacts.

Lemma find_snoc (A : Type) (f : A -> bool) (l : list A) (x : A) :
  find f (l ++ [x]) =
  match find f l with
  | Some y => Some y
  | None => if f x then Some x else None
  end.
Proof.
  induction l as [|y l IH]; simpl; [reflexivity|].
  destruct (f y); [reflexivity|exact IH].
Qed.

Lemma find_absent (lf : Field) (l : string) (rs : list Rec) :
  ~ In l (map (label lf) rs) ->
  find (fun r => (label lf r =? l)%string) rs = None.
Proof.
  induction rs as [|r rs IH]; simpl; [reflexivity|].
  intros Hnot. destruct (String.eqb_spec (label lf r) l) as [E|].
  - exfalso. apply Hnot. now left.
  - apply IH. intros H. apply Hnot. now right.
Qed.

Lemma find_present (lf : Field) (l : string) (rs : list Rec) :
  In l (map (label lf) rs) ->
  exists r, find (fun r => (label lf r =? l)%string) rs = Some r.
Proof.
  induction rs as [|r rs IH]; simpl; [intros []|].
  intros H. destruct (String.eqb_spec (label lf r) l) as [E|Hne].
  - now exists r.
  - destruct H as [H|H]; [contradiction|now apply IH].
Qed.

Section ItemFacts.
Variable host : Host.
Variables labelField valueField groupByField : Field.

Local Abbreviation labelOf := (label labelField).
Local Abbreviation amount := (clamped valueField).
Local Abbreviation colorOf := (groupColor host groupByField).
Local Abbreviation irun := (itemsRun host labelField valueField groupByField).
Local Abbreviation total := (labelTotal labelField valueField).
Local Abbreviation firstColorAt := (firstColorOf host labelField groupByField).

Implicit Types (items : object item) (r : Rec) (rs : list Rec) (l : string).

Lemma itemStep_shape items l c m :
  itemStep items l c m = items
  \/ exists data, itemStep items l c m = putOwn items l data.
Proof.
  unfold itemStep. destruct (getOwn items l) as [data|].
  - right. now eexists.
  - destruct (isInherited l); [now left|right; now eexists].
Qed.

Lemma itemStep_other items l l' c m :
  l' <> l -> getOwn (itemStep items l c m) l' = getOwn items l'.
Proof.
  intros Hne. destruct (itemStep_shape items l c m) as [->|[data ->]].
  - reflexivity.
  - apply getOwn_putOwn_other. congruence.
Qed.

Lemma itemsRun_snoc rs r :
  irun (rs ++ [r]) = itemStep (irun rs) (labelOf r) (colorOf r) (amount r).
Proof. unfold itemsRun. now rewrite fold_left_app. Qed.

(** The own keys of a group's items: the labels of its records at their
    first occurrence, but for those that name a member of
    [Object.prototype]. *)
Lemma keys_itemsRun rs :
  keys (irun rs) =
  firstSeen (filter (fun l => negb (isInherited l)) (map labelOf rs)).
Proof.
  induction rs as [|r rs IH] using rev_ind; [reflexivity|].
  rewrite itemsRun_snoc, map_app, filter_app. simpl.
  unfold itemStep.
  destruct (getOwn (irun rs) (labelOf r)) as [data|] eqn:Hg.
  - pose proof (getOwn_Some_key _ _ Hg) as HI.
    rewrite keys_putOwn_old by assumption.
    rewrite IH, firstSeen_In, filter_In in HI. destruct HI as [HI Hi].
    rewrite Hi. rewrite firstSeen_snoc_old; [assumption|].
    rewrite filter_In. now split.
  - destruct (isInherited (labelOf r)) eqn:Hi; simpl.
    + now rewrite app_nil_r.
    + apply getOwn_None in Hg.
      rewrite keys_putOwn_new by assumption.
      rewrite firstSeen_snoc_new; [now rewrite IH|].
      now rewrite IH, firstSeen_In in Hg.
Qed.

Lemma NoDup_keys_itemsRun rs : NoDup (keys (irun rs)).
Proof. rewrite keys_itemsRun. apply firstSeen_NoDup. Qed.

Lemma getOwn_itemsRun_absent rs l :
  ~ In l (map labelOf rs) -> getOwn (irun rs) l = None.
Proof.
  intros Hnot. apply getOwn_None.
  rewrite keys_itemsRun, firstSeen_In, filter_In. now intros [H _].
Qed.

(** The item of a label that names no member of [Object.prototype]: the
    total of the group's records that bear it, and the colour of the first
    of them. *)
Lemma getOwn_itemsRun rs l :
  isInherited l = false -> In l (map labelOf rs) ->
  getOwn (irun rs) l = Some (mkItem (total l rs) (firstColorAt l rs)).
Proof.
  intros Hi. induction rs as [|r rs IH] using rev_ind; [intros []|].
  rewrite itemsRun_snoc, labelTotal_snoc, map_app. simpl. intros HI.
  unfold firstColorOf. rewrite find_snoc.
  destruct (String.eqb_spec (labelOf r) l) as [E|Hne].
  - subst l. unfold itemStep.
    destruct (in_dec string_dec (labelOf r) (map labelOf rs)) as [Hold|Hnew].
    + rewrite (IH Hold), getOwn_putOwn_same. simpl.
      unfold firstColorOf.
      destruct (find_present labelField (labelOf r) rs Hold) as [r' ->].
      reflexivity.
    + rewrite (getOwn_itemsRun_absent rs (labelOf r) Hnew), Hi.
      rewrite getOwn_putOwn_same.
      rewrite (labelTotal_absent labelField valueField (labelOf r) rs Hnew).
      now rewrite (find_absent labelField (labelOf r) rs Hnew).
  - rewrite itemStep_other by congruence.
    assert (Hold : In l (map labelOf rs)).
    { apply in_app_or in HI. destruct HI as [HI|[E|[]]]; [assumption|].
      now contradiction Hne. }
    rewrite (IH Hold), Z.add_0_r. unfold firstColorOf.
    destruct (find_present labelField l rs Hold) as [r' ->]. reflexivity.
Qed.

(** Every item holds the total of its label, whatever the labels are. *)
Lemma itemsRun_entries rs :
  Forall (fun e => snd e = mkItem (total (fst e) rs) (firstColorAt (fst e) rs)
                   /\ isInherited (fst e) = false
                   /\ In (fst e) (map labelOf rs))
         (irun rs).
Proof.
  apply Forall_forall. intros [k d] He. simpl.
  pose proof (getOwn_NoDup_In _ _ _ (NoDup_keys_itemsRun rs) He) as Hg.
  pose proof (getOwn_Some_key _ _ Hg) as Hk.
  rewrite keys_itemsRun, firstSeen_In, filter_In in Hk.
  destruct Hk as [Hk Hi]. apply negb_true_iff in Hi.
  rewrite (getOwn_itemsRun rs k Hi Hk) in Hg.
  repeat split; [congruence|assumption|assumption].
Qed.

End ItemFacts.

Section GroupRunFacts.
Variable host : Host.
Variables labelField valueField groupByField : Field.

Local Abbreviation nameOf := (groupName host groupByField).
Local Abbreviation gstep := (groupStep host labelField valueField groupByField).
Local Abbreviation grun := (groupRun host labelField valueField groupByField).
Local Abbreviation irun := (itemsRun host labelField valueField groupByField).
Local Abbreviation recordsIn := (recordsOfGroup host groupByField).

Implicit Types (groups : groupsObject) (r : Rec) (rs : list Rec) (g : string).

Lemma groupRun_snoc rs r : grun (rs ++ [r]) = gstep (grun rs) r.
Proof. unfold groupRun. now rewrite fold_left_app. Qed.

Lemma itemsOf_groupStep groups r g :
  itemsOf (gstep groups r) g =
  if (nameOf r =? g)%string
  then itemStep (itemsOf groups g) (label labelField r)
                (groupColor host groupByField r) (clamped valueField r)
  else itemsOf groups g.
Proof.
  unfold groupStep, itemsOf at 1.
  destruct (String.eqb_spec (nameOf r) g) as [<-|Hne].
  - now rewrite getOwn_putOwn_same.
  - now rewrite getOwn_putOwn_other.
Qed.

(** The items of a group are the run of the loop body over its records. *)
Lemma itemsOf_groupRun rs g : itemsOf (grun rs) g = irun (recordsIn g rs).
Proof.
  induction rs as [|r rs IH] using rev_ind; [reflexivity|].
  rewrite groupRun_snoc, itemsOf_groupStep. unfold recordsOfGroup.
  rewrite filter_app. simpl.
  destruct (nameOf r =? g)%string.
  - unfold itemsRun. rewrite fold_left_app. simpl. now rewrite IH.
  - now rewrite app_nil_r.
Qed.

Lemma keys_groupRun rs : keys (grun rs) = firstSeen (map nameOf rs).
Proof.
  induction rs as [|r rs IH] using rev_ind; [reflexivity|].
  rewrite groupRun_snoc, map_app. simpl. unfold groupStep.
  destruct (in_dec string_dec (nameOf r) (keys (grun rs))) as [Hold|Hnew].
  - rewrite keys_putOwn_old by assumption.
    rewrite firstSeen_snoc_old; [assumption|].
    now rewrite IH, firstSeen_In in Hold.
  - rewrite keys_putOwn_new by assumption.
    rewrite firstSeen_snoc_new; [now rewrite IH|].
    now rewrite IH, firstSeen_In in Hnew.
Qed.

Lemma NoDup_keys_groupRun rs : NoDup (keys (grun rs)).
Proof. rewrite keys_groupRun. apply firstSeen_NoDup. Qed.

Lemma getOwn_groupRun rs g :
  In g (map nameOf rs) -> getOwn (grun rs) g = Some (irun (recordsIn g rs)).
Proof.
  intros HI. rewrite <- firstSeen_In, <- keys_groupRun in HI.
  apply In_keys_getOwn in HI. destruct HI as [items Hg].
  rewrite <- itemsOf_groupRun. unfold itemsOf. now rewrite Hg.
Qed.

Lemma groupRun_entries rs :
  Forall (fun e => snd e = irun (recordsIn (fst e) rs)
                   /\ In (fst e) (map nameOf rs))
         (grun rs).
Proof.
  apply Forall_forall. intros [g items] He. simpl.
  pose proof (getOwn_NoDup_In _ _ _ (NoDup_keys_groupRun rs) He) as Hg.
  pose proof (getOwn_Some_key _ _ Hg) as Hk.
  rewrite keys_groupRun, firstSeen_In in Hk.
  rewrite (getOwn_groupRun rs g Hk) in Hg. split; [congruence|assumption].
Qed.

(** A group comes into being with a record of its own. *)
Lemma recordsOfGroup_nonempty rs g :
  In g (map nameOf rs) -> recordsIn g rs <> [].
Proof.
  intros HI. apply in_map_iff in HI. destruct HI as [r [E Hr]].
  intros Hnil. assert (H : In r (recordsIn g rs)).
  { unfold recordsOfGroup. apply filter_In. split; [assumption|].
    now apply String.eqb_eq. }
  rewrite Hnil in H. destruct H.
Qed.

End GroupRunFacts.

(* ------------------------------------------------------------------ *)
(** ** Branches *)

Lemma ids_branches (groups : groupsObject) :
  map id (branches groups) = keys (Object_entries groups).
Proof. unfold branches, keys. rewrite map_map. reflexivity. Qed.

Lemma ids_itemChildren (items : object item) :
  map id (itemChildren items) = keys (Object_entries items).
Proof. unfold itemChildren, keys. rewrite map_map. reflexivity. Qed.

Lemma In_branches (groups : groupsObject) (b : TreemapNode) :
  In b (branches groups) <->
  exists g items, In (g, items) groups /\ b = branch (g, items).
Proof.
  unfold branches. rewrite in_map_iff. split.
  - intros [[g items] [<- HI]]. exists g, items.
    split; [now apply Object_entries_In|reflexivity].
  - intros [g [items [HI ->]]]. exists (g, items).
    split; [reflexivity|now apply Object_entries_In].
Qed.

(* ------------------------------------------------------------------ *)
(** ** The callback as a whole *)

Lemma childrenOf_root (title : string) (nodes : list TreemapNode) :
  childrenOf (root title nodes) = nodes.
Proof. reflexivity. Qed.

Lemma childrenOf_branch (e : string * object item) :
  childrenOf (branch e) = itemChildren (snd e).
Proof. reflexivity. Qed.

Lemma treemapData_unset (host : Host) (records : list Rec)
    (labelField valueField groupByField : option Field) (title : string) :
  labelField = None \/ valueField = None \/ records = [] ->
  treemapData host records labelField valueField groupByField title =
  Returns (root title []).
Proof.
  unfold treemapData, root. intros [->|[->| ->]].
  - reflexivity.
  - now destruct labelField.
  - now destruct labelField, valueField.
Qed.

Lemma treemapData_ungrouped (host : Host) (records : list Rec)
    (lf vf : Field) (title : string) :
  records <> [] ->
  treemapData host records (Some lf) (Some vf) None title =
  Returns (root title (leaves (aggregate host lf vf records))).
Proof. destruct records; [congruence|reflexivity]. Qed.

Lemma treemapData_grouped (host : Host) (records : list Rec)
    (lf vf gf : Field) (title : string) :
  records <> [] ->
  treemapData host records (Some lf) (Some vf) (Some gf) title =
  bind (groupRecords host lf vf gf [] records)
       (fun groups => Returns (root title (branches groups))).
Proof. destruct records; [congruence|reflexivity]. Qed.

Lemma inherited_group_dec (host : Host) (gf : Field) (records : list Rec) :
  ownGroupNames host gf records
  \/ exists r, In r records /\ isInherited (groupName host gf r) = true.
Proof.
  unfold ownGroupNames. induction records as [|r rs IH].
  - left. intros r [].
  - destruct (isInherited (groupName host gf r)) eqn:Hr.
    + right. exists r. split; [now left|assumption].
    + destruct IH as [IH|[r' [Hr' Hi]]].
      * left. intros r' [<-|Hr']; [assumption|now apply IH].
      * right. exists r'. split; [now right|assumption].
Qed.

(** The run with a group field returns the branches of [groupRun], unless a
    group name is a member of [Object.prototype]: then it escapes. *)
Lemma treemapData_grouped_cases (host : Host) (records : list Rec)
    (lf vf gf : Field) (title : string) :
  records <> [] ->
  (ownGroupNames host gf records
   /\ treemapData host records (Some lf) (Some vf) (Some gf) title =
      Returns (root title (branches (groupRun host lf vf gf records))))
  \/ ((exists r, In r records /\ isInherited (groupName host gf r) = true)
      /\ treemapData host records (Some lf) (Some vf) (Some gf) title
         = Escapes).
Proof.
  intros Hne. rewrite treemapData_grouped by assumption.
  destruct (inherited_group_dec host gf records) as [Hown|Hinh].
  - left. split; [assumption|]. now rewrite loop_returns.
  - right. split; [assumption|].
    rewrite loop_escapes; [reflexivity| |assumption].
    intros k [].
Qed.

Lemma treemapData_never_throws (host : Host) (records : list Rec)
    (labelField valueField groupByField : option Field) (title : string) :
  treemapData host records labelField valueField groupByField title <> Throws.
Proof.
  destruct labelField as [lf|], valueField as [vf|], records as [|r rs];
    try discriminate.
  destruct groupByField as [gf|]; [|discriminate].
  destruct (@treemapData_grouped_cases host (r :: rs) lf vf gf title)
    as [[_ ->]|[_ ->]]; discriminate.
Qed.

(* ------------------------------------------------------------------ *)
(** ** What the tree holds for a label *)

Lemma filter_all (A : Type) (f : A -> bool) (l : list A) :
  (forall x, In x l -> f x = true) -> filter f l = l.
Proof.
  induction l as [|x l IH]; simpl; intros H; [reflexivity|].
  rewrite (H x (or_introl eq_refl)). f_equal. apply IH.
  intros y Hy. apply H. now right.
Qed.

Lemma enumerationOrder_named (seen ids : list string) :
  (forall k, In k seen -> isArrayIndex k = false) ->
  enumerationOrder seen ids -> ids = seen.
Proof.
  intros Hno [idx [-> [Hp _]]].
  assert (Hnil : filter isArrayIndex seen = []).
  { clear Hp. induction seen as [|k seen IH]; simpl; [reflexivity|].
    rewrite (Hno k (or_introl eq_refl)). apply IH.
    intros k' Hk'. apply Hno. now right. }
  rewrite Hnil in Hp. apply Permutation_sym, Permutation_nil in Hp.
  subst idx. simpl.
  apply filter_all. intros k Hk. now rewrite (Hno k Hk).
Qed.

Lemma own_label_not_proto (lf : Field) (rs : list Rec) :
  ownLabels lf rs ->
  filter (fun l => negb (l =? "__proto__")%string) (map (label lf) rs) =
  map (label lf) rs.
Proof.
  intros Hown. apply filter_all. intros l Hl.
  apply in_map_iff in Hl. destruct Hl as [r [<- Hr]].
  specialize (Hown r Hr).
  destruct (String.eqb_spec (label lf r) "__proto__") as [E|]; [|reflexivity].
  rewrite E in Hown. discriminate.
Qed.

Lemma own_label_not_inherited (lf : Field) (rs : list Rec) :
  ownLabels lf rs ->
  filter (fun l => negb (isInherited l)) (map (label lf) rs) =
  map (label lf) rs.
Proof.
  intros Hown. apply filter_all. intros l Hl.
  apply in_map_iff in Hl. destruct Hl as [r [<- Hr]].
  now rewrite (Hown r Hr).
Qed.

Lemma ownLabels_recordsOfGroup (host : Host) (lf gf : Field) (g : string)
    (rs : list Rec) :
  ownLabels lf rs -> ownLabels lf (recordsOfGroup host gf g rs).
Proof.
  intros Hown r Hr. apply Hown. unfold recordsOfGroup in Hr.
  now apply filter_In in Hr.
Qed.

Lemma In_recordsOfGroup (host : Host) (gf : Field) (rs : list Rec) (r : Rec) :
  In r rs -> In r (recordsOfGroup host gf (groupName host gf r) rs).
Proof.
  intros Hr. unfold recordsOfGroup. apply filter_In.
  split; [assumption|apply String.eqb_refl].
Qed.

Lemma itemChildren_eq (items : object item) :
  itemChildren items = map itemLeaf (Object_entries items).
Proof. reflexivity. Qed.

Section Placement.
Variable host : Host.
Variables labelField valueField groupByField : Field.

Local Abbreviation labelOf := (label labelField).
Local Abbreviation nameOf := (groupName host groupByField).
Local Abbreviation grun := (groupRun host labelField valueField groupByField).
Local Abbreviation irun := (itemsRun host labelField valueField groupByField).
Local Abbreviation recordsIn := (recordsOfGroup host groupByField).

(** The branch of a group: its items are those of the group's records. *)
Lemma branch_of_group (rs : list Rec) (g : string) :
  In g (map nameOf rs) ->
  In (branch (g, irun (recordsIn g rs))) (branches (grun rs)).
Proof.
  intros Hg. apply In_branches. exists g, (irun (recordsIn g rs)).
  split; [|reflexivity]. apply getOwn_In. now apply getOwn_groupRun.
Qed.

Lemma branch_is_group (rs : list Rec) (b : TreemapNode) :
  In b (branches (grun rs)) ->
  In (id b) (map nameOf rs)
  /\ b = branch (id b, irun (recordsIn (id b) rs)).
Proof.
  intros Hb. apply In_branches in Hb. destruct Hb as [g [items [He ->]]].
  pose proof (groupRun_entries host labelField valueField groupByField rs) as H.
  rewrite Forall_forall in H. destruct (H _ He) as [Hitems Hg].
  simpl in *. now subst items.
Qed.

(** The leaf of a label within its group. *)
Lemma leaf_of_group_label (rs : list Rec) (r : Rec) :
  In r rs -> isInherited (labelOf r) = false ->
  In (mkNode (labelOf r)
        (Some (PNumber (labelTotal labelField valueField (labelOf r)
                          (recordsIn (nameOf r) rs))))
        (firstColorOf host labelField groupByField (labelOf r)
           (recordsIn (nameOf r) rs))
        None)
     (itemChildren (irun (recordsIn (nameOf r) rs))).
Proof.
  intros Hr Hi. rewrite itemChildren_eq.
  set (rs' := recordsIn (nameOf r) rs).
  change (mkNode (labelOf r)
            (Some (PNumber (labelTotal labelField valueField (labelOf r) rs')))
            (firstColorOf host labelField groupByField (labelOf r) rs') None)
    with (itemLeaf (labelOf r,
                    mkItem (labelTotal labelField valueField (labelOf r) rs')
                      (firstColorOf host labelField groupByField (labelOf r)
                                    rs'))).
  apply in_map, Object_entries_In, getOwn_In.
  apply getOwn_itemsRun; [assumption|].
  apply in_map. now apply In_recordsOfGroup.
Qed.

Lemma branches_NoDup (rs : list Rec) : NoDup (map id (branches (grun rs))).
Proof.
  rewrite ids_branches. apply NoDup_keys_Object_entries, NoDup_keys_groupRun.
Qed.

Lemma itemChildren_NoDup (rs : list Rec) :
  NoDup (map id (itemChildren (irun rs))).
Proof.
  rewrite ids_itemChildren.
  apply NoDup_keys_Object_entries, NoDup_keys_itemsRun.
Qed.

(** In a group every leaf carries a number that is not negative. *)
Lemma itemChildren_nonneg (rs : list Rec) (n : TreemapNode) :
  In n (itemChildren (irun rs)) ->
  exists z, value n = Some (PNumber z) /\ 0 <= z.
Proof.
  rewrite itemChildren_eq, in_map_iff. intros [e [<- He]].
  apply (proj1 (Object_entries_In _ _)) in He.
  pose proof (itemsRun_entries host labelField valueField groupByField rs) as H.
  rewrite Forall_forall in H. destruct (H _ He) as [Hv _].
  exists (itemValue (snd e)). split; [reflexivity|].
  rewrite Hv. simpl. apply labelTotal_nonneg.
Qed.

(** A group whose records' labels are no members of [Object.prototype] has
    a leaf. *)
Lemma itemChildren_nonempty (rs : list Rec) :
  rs <> [] -> ownLabels labelField rs -> itemChildren (irun rs) <> [].
Proof.
  intros Hne Hown Hnil. destruct rs as [|r rs]; [congruence|].
  apply (f_equal (map id)) in Hnil.
  rewrite ids_itemChildren in Hnil.
  assert (HI : In (labelOf r) (keys (Object_entries (irun (r :: rs))))).
  { apply (Permutation_in _
             (Permutation_sym (keys_Object_entries_perm _))).
    rewrite keys_itemsRun, firstSeen_In, own_label_not_inherited by assumption.
    now left. }
  rewrite Hnil in HI. destruct HI.
Qed.

End Placement.

(* ------------------------------------------------------------------ *)
(** ** The examples of the specification *)

Example example_ungrouped :
  treemapData sampleHost exampleRecords (Some "Name") (Some "Revenue") None
              (chartTitle None) =
  Returns (root "Company revenue map" [leaf "A" 15 None; leaf "B" 0 None]).
Proof. reflexivity. Qed.

Example example_grouped :
  treemapData sampleHost exampleRecords (Some "Name") (Some "Revenue")
              (Some "Sector") "Company revenue map" =
  Returns (root "Company revenue map"
             [ mkNode "G1" None None (Some [leaf "A" 15 None]);
               mkNode "G2" None (Some "#2d7ff9")
                      (Some [leaf "B" 0 (Some "#2d7ff9")]) ]).
Proof. reflexivity. Qed.

(* ------------------------------------------------------------------ *)
(** ** Shape of the tree *)




(** The tree of a run, from its outcome. *)
Lemma treemapData_Returns (host : Host) (records : list Rec)
    (labelField valueField groupByField : option Field) (title : string)
    (t : TreemapNode) :
  treemapData host records labelField valueField groupByField title
  = Returns t ->
  ((labelField = None \/ valueField = None \/ records = [])
   /\ t = root title [])
  \/ (exists lf vf, labelField = Some lf /\ valueField = Some vf
        /\ groupByField = None /\ records <> []
        /\ t = root title (leaves (aggregate host lf vf records)))
  \/ (exists lf vf gf, labelField = Some lf /\ valueField = Some vf
        /\ groupByField = Some gf /\ records <> []
        /\ ownGroupNames host gf records
        /\ t = root title (branches (groupRun host lf vf gf records))).
Proof.
  intros H.
  destruct labelField as [lf|];
    [|left; rewrite treemapData_unset in H by auto; split; [auto|congruence]].
  destruct valueField as [vf|];
    [|left; rewrite treemapData_unset in H by auto; split; [auto|congruence]].
  destruct records as [|r rs];
    [left; rewrite treemapData_unset in H by auto; split; [auto|congruence]|].
  assert (Hne : r :: rs <> []) by discriminate.
  right. destruct groupByField as [gf|].
  - right. exists lf, vf, gf.
    destruct (@treemapData_grouped_cases host (r :: rs) lf vf gf title Hne)
      as [[Hown E]|[_ E]]; rewrite E in H; [|discriminate].
    injection H as <-. now repeat split.
  - left. exists lf, vf. rewrite treemapData_ungrouped in H by assumption.
    injection H as <-. now repeat split.
Qed.



(** C7. When the label field is unset, or the value field is unset, or there
    are no records, the callback returns exactly the root titled with the
    given title over an empty sequence of children. *)
Theorem C7_unset_or_empty (host : Host) (records : list Rec)
    (labelField valueField groupByField : option Field) (title : string) :
  labelField = None \/ valueField = None \/ records = [] ->
  treemapData host records labelField valueField groupByField title =
  Returns (mkNode title None None (Some [])).
Proof. apply treemapData_unset. Qed.

Lemma C7_unset_or_empty_witness :
  treemapData sampleHost exampleRecords None (Some "Revenue") (Some "Sector")
              "Company revenue map" =
  Returns (mkNode "Company revenue map" None None (Some [])).
Proof.
  apply (@C7_unset_or_empty sampleHost exampleRecords None (Some "Revenue")
           (Some "Sector") "Company revenue map").
  left. reflexivity.
Defined.



(* ------------------------------------------------------------------ *)
(** ** Sums and leaves without a group field *)

(** Where no label names a member of [Object.prototype], the values of the
    leaves add up to the sum of [max(rawValue, 0)] over the records whose
    value cell is a number. *)
Theorem leaf_sum_of_own_labels (host : Host) (records : list Rec)
    (lf vf : Field) (title : string) :
  records <> [] -> ownLabels lf records ->
  exists t,
    treemapData host records (Some lf) (Some vf) None title = Returns t
    /\ sumOfValues (childrenOf t)
       = Some (sumZ (numericContributions vf records)).
Proof.
  intros Hne Hown. eexists. split; [now apply treemapData_ungrouped|].
  simpl. now apply leaves_sum.
Qed.

(** C1. A record labelled [__proto__] is read through the accessor of
    [Object.prototype] and never becomes a property of [aggregated]: the
    tree has no leaf for it, and the leaves add up to 0 where the records
    add up to 10. *)
Theorem C1_proto_label_is_not_summed (host : Host) (title : string) :
  let records := [row "__proto__" (CNumber 10) CNull] in
  treemapData host records (Some "Name") (Some "Revenue") None title
  = Returns (root title [])
  /\ sumOfValues (childrenOf (root title [])) = Some 0
  /\ sumZ (numericContributions "Revenue" records) = 10.
Proof. repeat split. Qed.


(** With a group field, where the run returns: no two branches share an id,
    no two leaves of a branch share an id, and a record whose label names no
    member of [Object.prototype] has its leaf in the branch of its group,
    carrying the total of the group's records that bear the label. *)
Theorem one_leaf_per_own_label_in_group (host : Host) (records : list Rec)
    (lf vf gf : Field) (title : string) (r : Rec) :
  In r records -> ownGroupNames host gf records ->
  exists t,
    treemapData host records (Some lf) (Some vf) (Some gf) title = Returns t
    /\ NoDup (map id (childrenOf t))
    /\ (forall b, In b (childrenOf t) -> NoDup (map id (childrenOf b)))
    /\ exists b,
         In b (childrenOf t) /\ id b = groupName host gf r
         /\ (isInherited (label lf r) = false ->
             In (mkNode (label lf r)
                   (Some (PNumber
                      (labelTotal lf vf (label lf r)
                         (recordsOfGroup host gf (groupName host gf r)
                                         records))))
                   (firstColorOf host lf gf (label lf r)
                      (recordsOfGroup host gf (groupName host gf r) records))
                   None)
                (childrenOf b)).
Proof.
  intros Hr Hown. assert (Hne : records <> []) by (intros ->; destruct Hr).
  destruct (@treemapData_grouped_cases host records lf vf gf title Hne)
    as [[_ E]|[[r' [Hr' Hi']] _]];
    [|rewrite (Hown r' Hr') in Hi'; discriminate].
  eexists. split; [exact E|]. simpl. split; [apply branches_NoDup|]. split.
  - intros b Hb. apply branch_is_group in Hb. destruct Hb as [_ ->]. simpl.
    apply itemChildren_NoDup.
  - exists (branch (groupName host gf r,
                    itemsRun host lf vf gf
                      (recordsOfGroup host gf (groupName host gf r) records))).
    split; [apply branch_of_group; now apply in_map|].
    split; [reflexivity|].
    intros Hi. simpl. now apply leaf_of_group_label.
Qed.

Lemma truthy_appended (s s' : string) :
  s' <> "" -> truthy (PString (s ++ s')) = true.
Proof.
  intros Hne. simpl. destruct s; simpl; [|reflexivity].
  destruct s'; [congruence|reflexivity].
Qed.

(** C2. Two records labelled [constructor] read the built-in function
    [Object] where the code expects its running total: the single leaf they
    get carries a text, the function's source with "10" and "5" appended,
    not their sum 15. *)
Theorem C2_method_label_is_not_summed (host : Host) (title : string) :
  let records := [ row "constructor" (CNumber 10) CNull;
                   row "constructor" (CNumber 5) CNull ] in
  treemapData host records (Some "Name") (Some "Revenue") None title
  = Returns (root title
      [ mkNode "constructor"
          (Some (PString ((nativeFunctionSource host "Object" ++ "10") ++ "5")))
          None None ])
  /\ labelTotal "Name" "Revenue" "constructor" records = 15.
Proof.
  intros records. split; [|reflexivity].
  unfold treemapData, root, records. do 3 f_equal.
  change (aggregate host "Name" "Revenue"
            [ row "constructor" (CNumber 10) CNull;
              row "constructor" (CNumber 5) CNull ])
    with (aggregateRecord host "Name" "Revenue"
            (aggregateRecord host "Name" "Revenue" []
               (row "constructor" (CNumber 10) CNull))
            (row "constructor" (CNumber 5) CNull)).
  rewrite (@aggregateRecord_method host "Name" "Revenue" []
             (row "constructor" (CNumber 10) CNull) "Object")
    by reflexivity.
  erewrite aggregateRecord_own by apply getOwn_putOwn_same.
  rewrite truthy_appended by discriminate.
  reflexivity.
Qed.

(* ------------------------------------------------------------------ *)
(** ** Values are never negative *)


(** With a group field every leaf carries a number, and none is negative. *)
Theorem group_leaves_nonnegative (host : Host) (records : list Rec)
    (labelField valueField : option Field) (gf : Field) (title : string)
    (t b n : TreemapNode) :
  treemapData host records labelField valueField (Some gf) title = Returns t ->
  In b (childrenOf t) -> In n (childrenOf b) ->
  exists z, value n = Some (PNumber z) /\ 0 <= z.
Proof.
  intros H Hb Hn. apply treemapData_Returns in H.
  destruct H as [[_ ->]|[[lf [vf [_ [_ [E _]]]]]
                    |[lf [vf [gf' [_ [_ [_ [_ [_ ->]]]]]]]]]].
  - destruct Hb.
  - discriminate.
  - simpl in Hb. apply branch_is_group in Hb. destruct Hb as [_ Hb].
    rewrite Hb in Hn. simpl in Hn. now apply itemChildren_nonneg in Hn.
Qed.

(** Without one, so does every leaf when no label names a member of
    [Object.prototype]. *)
Theorem leaves_nonnegative (host : Host) (records : list Rec)
    (lf vf : Field) (title : string) (n : TreemapNode) :
  ownLabels lf records ->
  In n (leaves (aggregate host lf vf records)) ->
  exists z, value n = Some (PNumber z) /\ 0 <= z.
Proof.
  intros Hown Hn. rewrite leaves_eq in Hn. apply in_map_iff in Hn.
  destruct Hn as [e [<- He]]. apply (proj1 (Object_entries_In _ _)) in He.
  pose proof (aggregate_entries host lf vf records Hown) as H.
  rewrite Forall_forall in H. specialize (H _ He).
  exists (labelTotal lf vf (fst e) records). simpl. rewrite H.
  split; [reflexivity|apply labelTotal_nonneg].
Qed.

(** C4. A record labelled [toString] with the number 5 adds [max(5, 0)] = 5,
    but to the built-in function that the read of [aggregated] finds: its
    leaf carries a text, the function's source followed by "5", which is no
    number at all, let alone one that is at least 0. *)
Theorem C4_method_label_leaf_is_text (host : Host) (title : string) :
  let records := [row "toString" (CNumber 5) CNull] in
  clamped "Revenue" (row "toString" (CNumber 5) CNull) = 5
  /\ treemapData host records (Some "Name") (Some "Revenue") None title
     = Returns (root title
         [ mkNode "toString"
             (Some (PString (nativeFunctionSource host "toString" ++ "5")))
             None None ])
  /\ leafNumber
       (mkNode "toString"
          (Some (PString (nativeFunctionSource host "toString" ++ "5")))
          None None) = None.
Proof. repeat split. Qed.

(* ------------------------------------------------------------------ *)
(** ** Branches and their children *)

(** Where no label names a member of [Object.prototype], every branch has a
    child. *)
Theorem branches_have_children (host : Host) (records : list Rec)
    (lf vf gf : Field) (title : string) (t b : TreemapNode) :
  ownLabels lf records ->
  treemapData host records (Some lf) (Some vf) (Some gf) title = Returns t ->
  In b (childrenOf t) -> childrenOf b <> [].
Proof.
  intros Hown H Hb. apply treemapData_Returns in H.
  destruct H as [[_ ->]|[[lf' [vf' [_ [_ [E _]]]]]
                    |[lf' [vf' [gf' [E1 [E2 [E3 [_ [_ ->]]]]]]]]]].
  - destruct Hb.
  - discriminate.
  - injection E1 as <-. injection E2 as <-. injection E3 as <-.
    simpl in Hb. apply branch_is_group in Hb. destruct Hb as [Hg ->]. simpl.
    apply itemChildren_nonempty.
    + now apply recordsOfGroup_nonempty.
    + now apply ownLabels_recordsOfGroup.
Qed.

(** C10. A record of group "G" labelled [constructor] creates the group,
    then finds the built-in function [Object] where it looks for the label's
    item and adds its value there: the branch "G" is emitted with an empty
    sequence of children. *)
Theorem C10_branch_without_children (host : Host) (title : string) :
  treemapData host [row "constructor" (CNumber 1) (CString "G")]
              (Some "Name") (Some "Revenue") (Some "Sector") title
  = Returns (root title [mkNode "G" None None (Some [])]).
Proof. reflexivity. Qed.

(* ------------------------------------------------------------------ *)
(** ** Order of the children *)

(** C3, as stated, fails: of the labels "2" and "1", met in this order, the
    leaf "1" comes first, since both are array indices. *)
Lemma C3_array_index_labels_are_sorted :
  exists t,
    treemapData sampleHost
      [row "2" (CNumber 7) CNull; row "1" (CNumber 3) CNull]
      (Some "Name") (Some "Revenue") None "Company revenue map" = Returns t
    /\ map id (childrenOf t) = ["1"; "2"]
    /\ firstSeen (map (label "Name")
                      [row "2" (CNumber 7) CNull; row "1" (CNumber 3) CNull])
       = ["2"; "1"]
    /\ map id (childrenOf t) <>
       firstSeen (map (label "Name")
                      [row "2" (CNumber 7) CNull; row "1" (CNumber 3) CNull]).
Proof.
  exists (root "Company revenue map" [leaf "1" 3 None; leaf "2" 7 None]).
  split; [reflexivity|]. split; [reflexivity|]. split; [reflexivity|].
  simpl. discriminate.
Qed.

(** C3, amended. Where no label and no group name is a member of
    [Object.prototype], the children of the root list the labels (without a
    group field) or the group names (with one) in the order of own property
    keys: those that are array indices first, by ascending number, then the
    others in the order they are first met among the records; and within
    each branch the leaves list the labels of the group's records in that
    same order. *)
Theorem C3_children_in_enumeration_order (host : Host) (records : list Rec)
    (lf vf : Field) (groupByField : option Field) (title : string) :
  records <> [] ->
  ownLabels lf records ->
  (forall gf, groupByField = Some gf -> ownGroupNames host gf records) ->
  exists t,
    treemapData host records (Some lf) (Some vf) groupByField title = Returns t
    /\ match groupByField with
       | None =>
           enumerationOrder (firstSeen (map (label lf) records))
                            (map id (childrenOf t))
       | Some gf =>
           enumerationOrder (firstSeen (map (groupName host gf) records))
                            (map id (childrenOf t))
           /\ forall b, In b (childrenOf t) ->
                enumerationOrder
                  (firstSeen (map (label lf)
                                  (recordsOfGroup host gf (id b) records)))
                  (map id (childrenOf b))
       end.
Proof.
  intros Hne Hown Hgroups. destruct groupByField as [gf|].
  - destruct (@treemapData_grouped_cases host records lf vf gf title Hne)
      as [[_ E]|[[r [Hr Hi]] _]];
      [|rewrite (Hgroups gf eq_refl r Hr) in Hi; discriminate].
    eexists. split; [exact E|]. rewrite childrenOf_root. split.
    + rewrite ids_branches, <- (keys_groupRun host lf vf gf records).
      apply Object_entries_order, NoDup_keys_groupRun.
    + intros b Hb. apply branch_is_group in Hb. destruct Hb as [_ ->].
      rewrite childrenOf_branch, ids_itemChildren. cbn [snd fst id branch].
      rewrite <- (own_label_not_inherited
                    (@ownLabels_recordsOfGroup host lf gf (id b) records Hown)).
      rewrite <- keys_itemsRun with (host := host) (valueField := vf)
                                    (groupByField := gf).
      apply Object_entries_order, NoDup_keys_itemsRun.
  - eexists. split; [now apply treemapData_ungrouped|].
    rewrite childrenOf_root, <- (own_label_not_proto Hown).
    apply leaves_order.
Qed.

Lemma C3_children_in_enumeration_order_witness :
  exists t,
    treemapData sampleHost exampleRecords (Some "Name") (Some "Revenue")
                (Some "Sector") "Company revenue map" = Returns t
    /\ enumerationOrder
         (firstSeen (map (groupName sampleHost "Sector") exampleRecords))
         (map id (childrenOf t))
    /\ forall b, In b (childrenOf t) ->
         enumerationOrder
           (firstSeen (map (label "Name")
                           (recordsOfGroup sampleHost "Sector" (id b)
                                           exampleRecords)))
           (map id (childrenOf b)).
Proof.
  apply (@C3_children_in_enumeration_order sampleHost exampleRecords
           "Name" "Revenue" (Some "Sector") "Company revenue map").
  - discriminate.
  - intros r [<-|[<-|[<-|[]]]]; reflexivity.
  - intros gf [= <-] r [<-|[<-|[<-|[]]]]; reflexivity.
Defined.

(** Where, besides, no key is an array index, the order is the order of
    first encounter. *)
Theorem first_seen_order_without_array_indices (host : Host)
    (records : list Rec) (lf vf : Field) (title : string) :
  records <> [] ->
  ownLabels lf records ->
  (forall r, In r records -> isArrayIndex (label lf r) = false) ->
  exists t,
    treemapData host records (Some lf) (Some vf) None title = Returns t
    /\ map id (childrenOf t) = firstSeen (map (label lf) records).
Proof.
  intros Hne Hown Hidx. eexists. split; [now apply treemapData_ungrouped|].
  rewrite childrenOf_root. apply enumerationOrder_named.
  - intros k Hk. apply firstSeen_In, in_map_iff in Hk.
    destruct Hk as [r [<- Hr]]. now apply Hidx.
  - rewrite <- (own_label_not_proto Hown). apply leaves_order.
Qed.

(* ------------------------------------------------------------------ *)
(** ** Group of a record *)

(** C6. With a group field, the group of a record comes from its group
    cell: the [name] of an object that has one, with the hex value of its
    [color] when it has a non-empty one; the cell itself when it is a
    string, with no colour; "Ungrouped" with no colour otherwise.  The tree
    of a run over the record has a branch of that name, and the record's
    leaf is among its children (unless its label is a member of
    [Object.prototype]). *)
Theorem C6_group_of_record (host : Host) (gf : Field) (r : Rec) :
  groupName host gf r = match getCellValue r gf with
                        | CTag name _ => name
                        | CString s => s
                        | _ => "Ungrouped"
                        end
  /\ groupColor host gf r = match getCellValue r gf with
                            | CTag _ (Some c) =>
                                if (c =? "")%string then None
                                else getHexForColor host c
                            | _ => None
                            end
  /\ forall (records : list Rec) (lf vf : Field) (title : string)
            (t : TreemapNode),
       In r records ->
       treemapData host records (Some lf) (Some vf) (Some gf) title
       = Returns t ->
       exists b,
         In b (childrenOf t) /\ id b = groupName host gf r
         /\ (isInherited (label lf r) = false ->
             exists n, In n (childrenOf b) /\ id n = label lf r).
Proof.
  split; [|split].
  - unfold groupName, groupOf. now destruct (getCellValue r gf).
  - unfold groupColor, groupOf.
    destruct (getCellValue r gf) as [| | |name [c|]|]; reflexivity.
  - intros records lf vf title t Hr H.
    pose proof (treemapData_Returns _ _ _ _ _ _ H) as Hc.
    destruct Hc as [[[E|[E|E]] _]|[[lf' [vf' [_ [_ [E _]]]]]
                       |[lf' [vf' [gf' [_ [_ [E [_ [Hown _]]]]]]]]]];
      try discriminate.
    + subst records. destruct Hr.
    + injection E as <-.
      destruct (@one_leaf_per_own_label_in_group host records lf vf gf title
                  r Hr Hown) as [t' [E' [_ [_ [b [Hb [Hid Hleaf]]]]]]].
      rewrite E' in H. injection H as <-.
      exists b. split; [assumption|]. split; [assumption|].
      intros Hi. eexists. split; [exact (Hleaf Hi)|reflexivity].
Qed.

Lemma C6_group_of_record_witness :
  groupName sampleHost "Sector"
            (row "B" (CNumber (-3)) (CTag "G2" (Some "blueBright"))) = "G2"
  /\ groupColor sampleHost "Sector"
               (row "B" (CNumber (-3)) (CTag "G2" (Some "blueBright")))
     = Some "#2d7ff9"
  /\ exists b,
       In b [ mkNode "G1" None None (Some [leaf "A" 15 None]);
              mkNode "G2" None (Some "#2d7ff9")
                     (Some [leaf "B" 0 (Some "#2d7ff9")]) ]
       /\ id b = "G2"
       /\ (isInherited "B" = false ->
           exists n, In n (childrenOf b) /\ id n = "B").
Proof.
  pose proof (@C6_group_of_record sampleHost "Sector"
                (row "B" (CNumber (-3)) (CTag "G2" (Some "blueBright"))))
    as [Hname [Hcolor Hplace]].
  split; [exact Hname|]. split; [exact Hcolor|].
  exact (Hplace exampleRecords "Name" "Revenue" "Company revenue map" _
           (or_intror (or_intror (or_introl eq_refl))) example_grouped).
Defined.

(* ------------------------------------------------------------------ *)
(** ** Malformed cells *)




Example example_malformed :
  treemapData sampleHost
    [row "A" (CNumber 10) (CString "G1"); row "" COther CNull]
    (Some "Name") (Some "Revenue") (Some "Sector") "Company revenue map"
  = Returns (root "Company revenue map"
       [ mkNode "G1" None None (Some [leaf "A" 10 None]);
         mkNode "Ungrouped" None None (Some [leaf "Unnamed" 0 None]) ]).
Proof. reflexivity. Qed.

(* ------------------------------------------------------------------ *)
(** ** Nodes come from records *)






(* ------------------------------------------------------------------ *)
(** ** Colours and sizes *)

Lemma find_app_first (A : Type) (p : A -> bool) (before after : list A)
    (x : A) :
  (forall y, In y before -> p y = false) -> p x = true ->
  find p (before ++ x :: after) = Some x.
Proof.
  induction before as [|a before IH]; simpl; intros Hb Hx.
  - now rewrite Hx.
  - rewrite (Hb a (or_introl eq_refl)). apply IH; [|assumption].
    intros y Hy. apply Hb. now right.
Qed.

(** X6. With a group field, the colour of a leaf is the colour of the first
    record that has its group name and label; the records after it, whatever
    their colours, do not enter.  (No group name, nor the label, being a
    member of [Object.prototype].) *)
Theorem first_record_colours_the_leaf (host : Host)
    (before after : list Rec) (r : Rec) (lf vf gf : Field) (title : string) :
  ownGroupNames host gf (before ++ r :: after) ->
  isInherited (label lf r) = false ->
  (forall r', In r' before ->
     groupName host gf r' = groupName host gf r ->
     label lf r' <> label lf r) ->
  exists t b n,
    treemapData host (before ++ r :: after) (Some lf) (Some vf) (Some gf)
                title = Returns t
    /\ In b (childrenOf t) /\ id b = groupName host gf r
    /\ In n (childrenOf b) /\ id n = label lf r
    /\ color n = groupColor host gf r.
Proof.
  intros Hown Hi Hfirst.
  set (records := before ++ r :: after) in *.
  assert (Hr : In r records) by (apply in_or_app; right; now left).
  assert (Hne : records <> []) by (intros E; rewrite E in Hr; destruct Hr).
  destruct (@treemapData_grouped_cases host records lf vf gf title Hne)
    as [[_ E]|[[r' [Hr' Hi']] _]];
    [|rewrite (Hown r' Hr') in Hi'; discriminate].
  eexists. exists (branch (groupName host gf r,
                           itemsRun host lf vf gf
                             (recordsOfGroup host gf (groupName host gf r)
                                             records))).
  eexists. split; [exact E|]. rewrite childrenOf_root, childrenOf_branch.
  split; [apply branch_of_group; now apply in_map|].
  split; [reflexivity|].
  split; [apply leaf_of_group_label; assumption|].
  split; [reflexivity|]. cbn [color].
  unfold firstColorOf, recordsOfGroup, records. rewrite filter_app. simpl.
  rewrite String.eqb_refl. rewrite find_app_first; [reflexivity| |].
  - intros y Hy. apply filter_In in Hy. destruct Hy as [Hy Hg].
    apply String.eqb_eq in Hg. apply String.eqb_neq. now apply Hfirst.
  - apply String.eqb_refl.
Qed.

Lemma first_record_colours_the_leaf_witness :
  exists t b n,
    treemapData sampleHost
      ([row "A" (CNumber 10) (CTag "G1" None)]
       ++ row "B" (CNumber 1) (CTag "G1" (Some "blueBright"))
       :: [row "B" (CNumber 2) (CString "G1")])
      (Some "Name") (Some "Revenue") (Some "Sector") "Company revenue map"
    = Returns t
    /\ In b (childrenOf t)
    /\ id b = groupName sampleHost "Sector"
                (row "B" (CNumber 1) (CTag "G1" (Some "blueBright")))
    /\ In n (childrenOf b)
    /\ id n = label "Name"
                (row "B" (CNumber 1) (CTag "G1" (Some "blueBright")))
    /\ color n = groupColor sampleHost "Sector"
                   (row "B" (CNumber 1) (CTag "G1" (Some "blueBright"))).
Proof.
  apply (@first_record_colours_the_leaf sampleHost
           [row "A" (CNumber 10) (CTag "G1" None)]
           [row "B" (CNumber 2) (CString "G1")]
           (row "B" (CNumber 1) (CTag "G1" (Some "blueBright")))
           "Name" "Revenue" "Sector" "Company revenue map").
  - intros r [<-|[<-|[<-|[]]]]; reflexivity.
  - reflexivity.
  - intros r' [<-|[]] _. discriminate.
Defined.





(* ------------------------------------------------------------------ *)
(** ** Sums with a group field *)







(* ------------------------------------------------------------------ *)
(** ** The order of the records *)





(* ------------------------------------------------------------------ *)
(** ** Records that change nothing *)





(* ------------------------------------------------------------------ *)
(** ** Grouping by the label itself *)

Lemma insertAscending_strip (V W : Type) (h : string * V -> string * W)
    (x : N * (string * V)) (l : list (N * (string * V))) :
  map (fun y => (fst y, h (snd y))) (insertAscending x l)
  = insertAscending (fst x, h (snd x)) (map (fun y => (fst y, h (snd y))) l).
Proof.
  induction l as [|y l IH]; simpl; [reflexivity|].
  destruct (fst x <=? fst y)%N; simpl; [reflexivity|now rewrite IH].
Qed.

Lemma ascending_strip (V W : Type) (h : string * V -> string * W)
    (l : list (N * (string * V))) :
  map (fun y => (fst y, h (snd y))) (ascending l)
  = ascending (map (fun y => (fst y, h (snd y))) l).
Proof.
  induction l as [|x l IH]; simpl; [reflexivity|].
  now rewrite insertAscending_strip, IH.
Qed.

(** [Object.entries] orders by the keys alone. *)
Lemma Object_entries_map (V W : Type) (h : string * V -> W) (o : object V) :
  Object_entries (map (fun e => (fst e, h e)) o)
  = map (fun e => (fst e, h e)) (Object_entries o).
Proof.
  unfold Object_entries. rewrite map_app. f_equal.
  - rewrite map_map.
    rewrite <- (map_map (fun y : N * (string * V) =>
                           (fst y, (fst (snd y), h (snd y))))
                        snd).
    rewrite (ascending_strip (fun e : string * V => (fst e, h e))).
    do 2 f_equal. induction o as [|e o IH]; simpl; [reflexivity|].
    destruct (arrayIndex (fst e)); simpl; now rewrite IH.
  - unfold named. induction o as [|e o IH]; simpl; [reflexivity|].
    destruct (isArrayIndex (fst e)); simpl; now rewrite IH.
Qed.

Lemma keys_Object_entries_keys (V W : Type) (o : object V) (o' : object W) :
  keys o = keys o' -> keys (Object_entries o) = keys (Object_entries o').
Proof.
  intros Hk.
  assert (H : forall (U : Type) (u : object U),
            keys (Object_entries u)
            = keys (Object_entries (map (fun k => (k, tt)) (keys u)))).
  { intros U u. unfold keys at 3. rewrite map_map.
    rewrite (Object_entries_map (fun _ : string * U => tt)).
    unfold keys. now rewrite map_map. }
  now rewrite (H V o), (H W o'), Hk.
Qed.

Lemma firstSeen_constant (g : string) (l : list string) :
  l <> [] -> (forall x, In x l -> x = g) -> firstSeen l = [g].
Proof.
  destruct l as [|x l]; [congruence|]. intros _ H. simpl.
  rewrite (H x (or_introl eq_refl)). f_equal.
  assert (Hl : forall y, In y (firstSeen l) -> y = g).
  { intros y Hy. apply H. right. now apply firstSeen_In. }
  induction (firstSeen l) as [|y l' IH]; simpl; [reflexivity|].
  rewrite (Hl y (or_introl eq_refl)), String.eqb_refl. simpl.
  apply IH. intros z Hz. apply Hl. now right.
Qed.

Lemma singleton_object (V : Type) (o : object V) (k : string) (v : V) :
  keys o = [k] -> getOwn o k = Some v -> o = [(k, v)].
Proof.
  destruct o as [|[k' v'] [|e o]]; simpl; try discriminate.
  intros [= ->]. rewrite String.eqb_refl. now intros [= ->].
Qed.

Lemma Object_entries_singleton (V : Type) (k : string) (v : V) :
  Object_entries [(k, v)] = [(k, v)].
Proof.
  apply Permutation_length_1_inv. apply Permutation_sym, Object_entries_perm.
Qed.

Lemma labelTotal_of_group (host : Host) (lf vf gf : Field) (g : string)
    (rs : list Rec) :
  (forall r, In r rs -> groupName host gf r = label lf r) ->
  labelTotal lf vf g (recordsOfGroup host gf g rs) = labelTotal lf vf g rs.
Proof.
  intros H. unfold labelTotal, recordsOfGroup. do 2 f_equal.
  induction rs as [|r rs IH]; simpl; [reflexivity|].
  rewrite (H r (or_introl eq_refl)).
  destruct (label lf r =? g)%string eqn:E; simpl; rewrite ?E;
    [f_equal|]; apply IH; intros r' Hr'; apply H; now right.
Qed.

(** X7. When every record's group name is its label (the group-by field is the
    label field itself, as the defaults of the custom properties mostly make
    it), grouping adds nothing: the branches bear the ids of the leaves of
    the tree without a group field, in the same order, and each branch
    holds a single leaf, with the branch's id and colour and with the value
    that leaf has without grouping. *)
Theorem grouping_by_label_wraps_leaves (host : Host) (records : list Rec)
    (lf vf gf : Field) (title : string) :
  records <> [] -> ownLabels lf records ->
  (forall r, In r records -> groupName host gf r = label lf r) ->
  exists t u,
    treemapData host records (Some lf) (Some vf) (Some gf) title = Returns t
    /\ treemapData host records (Some lf) (Some vf) None title = Returns u
    /\ map id (childrenOf t) = map id (childrenOf u)
    /\ forall b, In b (childrenOf t) ->
         childrenOf b
         = [ mkNode (id b)
                    (Some (PNumber (labelTotal lf vf (id b) records)))
                    (color b) None ]
         /\ In (mkNode (id b)
                       (Some (PNumber (labelTotal lf vf (id b) records)))
                       None None)
               (childrenOf u).
Proof.
  intros Hne Hown Hsame.
  assert (Hgrp : ownGroupNames host gf records).
  { intros r Hr. rewrite (Hsame r Hr). now apply Hown. }
  assert (Hnames : map (groupName host gf) records = map (label lf) records).
  { apply map_ext_in. exact Hsame. }
  destruct (@treemapData_grouped_cases host records lf vf gf title Hne)
    as [[_ E]|[[r [Hr Hi]] _]];
    [|rewrite (Hgrp r Hr) in Hi; discriminate].
  do 2 eexists. split; [exact E|].
  split; [now apply treemapData_ungrouped|].
  rewrite !childrenOf_root. split.
  - rewrite ids_branches, ids_leaves. apply keys_Object_entries_keys.
    rewrite keys_groupRun, keys_aggregate, Hnames.
    now rewrite own_label_not_proto.
  - intros b Hb. apply branch_is_group in Hb. destruct Hb as [Hg Hb].
    remember (id b) as g eqn:Eg. clear Eg.
    set (rs' := recordsOfGroup host gf g records) in *.
    assert (Hg' : In g (map (label lf) records)) by now rewrite <- Hnames.
    assert (Hig : isInherited g = false).
    { apply in_map_iff in Hg'. destruct Hg' as [r [<- Hr]]. now apply Hown. }
    assert (Hlab : forall x, In x (map (label lf) rs') -> x = g).
    { intros x Hx. apply in_map_iff in Hx. destruct Hx as [r [<- Hr]].
      unfold rs', recordsOfGroup in Hr. apply filter_In in Hr.
      destruct Hr as [Hr Hgr]. apply String.eqb_eq in Hgr.
      now rewrite <- (Hsame r Hr). }
    assert (Hne' : map (label lf) rs' <> []).
    { intros Hnil. apply map_eq_nil in Hnil.
      now apply (recordsOfGroup_nonempty host gf records g). }
    assert (Hkeys : keys (itemsRun host lf vf gf rs') = [g]).
    { rewrite keys_itemsRun, own_label_not_inherited
        by (now apply ownLabels_recordsOfGroup).
      now apply firstSeen_constant. }
    assert (Hin : In g (map (label lf) rs')).
    { destruct (map (label lf) rs') as [|x l] eqn:El; [congruence|].
      rewrite <- (Hlab x (or_introl eq_refl)). now left. }
    pose proof (getOwn_itemsRun host lf vf gf rs' g Hig Hin) as Hget.
    pose proof (@singleton_object _ _ _ _ Hkeys Hget) as Hitems.
    split.
    + subst b. rewrite childrenOf_branch. unfold branch. cbn [color snd fst].
      rewrite Hitems. unfold itemChildren.
      rewrite Object_entries_singleton. simpl.
      unfold rs'. now rewrite labelTotal_of_group.
    + apply leaf_of_label; assumption.
Qed.

Lemma grouping_by_label_wraps_leaves_witness :
  exists t u,
    treemapData sampleHost exampleRecords (Some "Name") (Some "Revenue")
                (Some "Name") "Company revenue map" = Returns t
    /\ treemapData sampleHost exampleRecords (Some "Name") (Some "Revenue")
                   None "Company revenue map" = Returns u
    /\ map id (childrenOf t) = map id (childrenOf u)
    /\ forall b, In b (childrenOf t) ->
         childrenOf b
         = [ mkNode (id b)
               (Some (PNumber (labelTotal "Name" "Revenue" (id b)
                                          exampleRecords)))
               (color b) None ]
         /\ In (mkNode (id b)
                  (Some (PNumber (labelTotal "Name" "Revenue" (id b)
                                             exampleRecords)))
                  None None)
               (childrenOf u).
Proof.
  apply (@grouping_by_label_wraps_leaves sampleHost exampleRecords
           "Name" "Revenue" "Name" "Company revenue map").
  - discriminate.
  - intros r [<-|[<-|[<-|[]]]]; reflexivity.
  - intros r [<-|[<-|[<-|[]]]]; reflexivity.
Defined.

(* ------------------------------------------------------------------ *)
(** ** What the component shows *)







(** X9. The notice "Configuration Required" appears, whatever the records are,
    when there is no error state and a required field is unset; it lists
    the label field exactly when that is unset, the value field exactly
    when that is unset, and is never empty. *)
Theorem configuration_notice_lists_missing_fields (host : Host)
    (records : list Rec) (colorScheme : string) (title : option string)
    (labelField valueField groupByField : option Field)
    (errorState : option string) :
  (errorState = None -> labelField = None \/ valueField = None ->
   TreemapChart host records colorScheme title labelField valueField
                groupByField errorState
   = Returns (ConfigurationRequired (missingFields labelField valueField)))
  /\ forall items,
       TreemapChart host records colorScheme title labelField valueField
                    groupByField errorState
       = Returns (ConfigurationRequired items) ->
       errorState = None /\ items <> []
       /\ (In "Label Field - The field to use for item labels" items
           <-> labelField = None)
       /\ (In "Value Field - The numeric field to determine item sizes" items
           <-> valueField = None).
Proof.
  split.
  - intros -> H. unfold TreemapChart.
    rewrite treemapData_unset by (destruct H; auto). simpl.
    destruct H as [-> | ->]; [reflexivity|now destruct labelField].
  - intros items. unfold TreemapChart.
    destruct (treemapData host records labelField valueField groupByField
                          (chartTitle title)); simpl; try discriminate.
    destruct errorState; [discriminate|].
    destruct labelField as [lf|], valueField as [vf|];
      try (destruct records; discriminate);
      intros [= <-]; (split; [reflexivity|]); (split; [discriminate|]);
      simpl; split; split; intros H;
      try reflexivity; try discriminate; try (now left);
      try (now right; left);
      repeat (destruct H as [H|H]; try discriminate); try destruct H.
Qed.

(** X10. An error state shows the error's message after its fixed prefix,
    whatever fields and records there are; but the callback has run before,
    and a group name that is a member of [Object.prototype] has made the
    run escape. *)
Theorem error_state_wins (host : Host) (records : list Rec)
    (colorScheme : string) (title : option string)
    (labelField valueField groupByField : option Field) (message : string) :
  TreemapChart host records colorScheme title labelField valueField
               groupByField (Some message)
  = Returns (ErrorMessage ("Error loading custom properties: " ++ message))
  \/ (TreemapChart host records colorScheme title labelField valueField
                   groupByField (Some message) = Escapes
      /\ exists gf r,
           groupByField = Some gf /\ In r records
           /\ isInherited (groupName host gf r) = true).
Proof.
  unfold TreemapChart.
  destruct labelField as [lf|];
    [|left; now rewrite treemapData_unset by auto].
  destruct valueField as [vf|];
    [|left; now rewrite treemapData_unset by auto].
  destruct records as [|r0 rs];
    [left; now rewrite treemapData_unset by auto|].
  destruct groupByField as [gf|].
  - destruct (@treemapData_grouped_cases host (r0 :: rs) lf vf gf
                (chartTitle title)) as [[_ ->]|[[r [Hr Hi]] ->]];
      [discriminate|now left|].
    right. split; [reflexivity|]. now exists gf, r.
  - left. now rewrite treemapData_ungrouped by discriminate.
Qed.

(* ------------------------------------------------------------------ *)
(** ** The label of a leaf *)

Lemma length_append (s t : string) :
  String.length (s ++ t) = (String.length s + String.length t)%nat.
Proof. induction s as [|c s IH]; simpl; [reflexivity|now rewrite IH]. Qed.

Lemma length_substring (n : nat) (s : string) :
  (n <= String.length s)%nat -> String.length (substring 0 n s) = n.
Proof.
  revert s. induction n as [|n IH]; intros s Hn.
  - now destruct s.
  - destruct s as [|c s]; simpl in *; [lia|]. rewrite IH; [reflexivity|lia].
Qed.

Lemma append_cancel (s1 s2 t : string) :
  String.length s1 = String.length s2 ->
  (s1 ++ t)%string = (s2 ++ t)%string -> s1 = s2.
Proof.
  revert s2. induction s1 as [|c s1 IH]; intros [|c' s2]; simpl;
    try discriminate; [reflexivity|].
  intros [= Hl] [= -> H]. f_equal. now apply IH.
Qed.

Lemma shownId_short (nodeId : string) :
  (String.length nodeId <= 10)%nat -> shownId nodeId = nodeId.
Proof.
  unfold shownId. intros H.
  destruct (Nat.ltb_spec 10 (String.length nodeId)); [lia|reflexivity].
Qed.

Lemma shownId_long (nodeId : string) :
  (10 < String.length nodeId)%nat ->
  shownId nodeId = (substring 0 10 nodeId ++ "...")%string
  /\ String.length (shownId nodeId) = 13%nat.
Proof.
  unfold shownId. intros H.
  destruct (Nat.ltb_spec 10 (String.length nodeId)); [|lia].
  split; [reflexivity|].
  rewrite length_append, length_substring by lia. reflexivity.
Qed.

(** X11. The shown id is never longer than 13 characters; an id of up to 10
    characters is shown as it is, a longer one as its first 10 characters
    followed by three dots. *)
Theorem shownId_bounded (nodeId : string) :
  (String.length (shownId nodeId) <= 13)%nat
  /\ ((String.length nodeId <= 10)%nat -> shownId nodeId = nodeId)
  /\ ((10 < String.length nodeId)%nat ->
      shownId nodeId = (substring 0 10 nodeId ++ "...")%string
      /\ String.length (shownId nodeId) = 13%nat).
Proof.
  split; [|split; [apply shownId_short|apply shownId_long]].
  destruct (Nat.ltb_spec 10 (String.length nodeId)) as [Hlong|Hshort].
  - destruct (shownId_long nodeId Hlong) as [_ ->]. lia.
  - rewrite shownId_short by assumption. lia.
Qed.

(** X12. Two ids are shown alike exactly when they are equal, or both are longer
    than 10 characters and agree on their first 10. *)
Theorem shownId_collisions (a b : string) :
  shownId a = shownId b <->
  a = b \/ ((10 < String.length a)%nat /\ (10 < String.length b)%nat
            /\ substring 0 10 a = substring 0 10 b).
Proof.
  pose proof (shownId_short a) as Hsa. pose proof (shownId_long a) as Hla.
  pose proof (shownId_short b) as Hsb. pose proof (shownId_long b) as Hlb.
  destruct (Nat.ltb_spec 10 (String.length a)) as [Ha|Ha];
    destruct (Nat.ltb_spec 10 (String.length b)) as [Hb|Hb].
  - destruct (Hla Ha) as [Ea _]. destruct (Hlb Hb) as [Eb _]. split.
    + intros H. right. repeat split; try assumption.
      rewrite Ea, Eb in H. apply append_cancel in H; [assumption|].
      now rewrite !length_substring by lia.
    + intros [->|[_ [_ H]]]; [reflexivity|]. now rewrite Ea, Eb, H.
  - destruct (Hla Ha) as [_ La]. rewrite (Hsb Hb). split.
    + intros H. exfalso. rewrite H in La. lia.
    + intros [->|[_ [H _]]]; lia.
  - destruct (Hlb Hb) as [_ Lb]. rewrite (Hsa Ha). split.
    + intros H. exfalso. rewrite <- H in Lb. lia.
    + intros [->|[H _]]; lia.
  - rewrite (Hsa Ha), (Hsb Hb). split; [now left|].
    intros [H|[H _]]; [assumption|lia].
Qed.

(* ------------------------------------------------------------------ *)
(** ** Default fields of the custom properties *)

Lemma first_allowed (A : Type) (p : A -> bool) (l : list A) :
  match hd_error (filter p l) with
  | Some x =>
      exists before after,
        l = before ++ x :: after /\ p x = true
        /\ Forall (fun y => p y = false) before
  | None => Forall (fun y => p y = false) l
  end.
Proof.
  induction l as [|a l IH]; simpl; [constructor|].
  destruct (p a) eqn:Ha; simpl.
  - exists [], l. split; [reflexivity|]. split; [assumption|constructor].
  - destruct (hd_error (filter p l)) as [x|].
    + destruct IH as [before [after [-> [Hx Hb]]]].
      exists (a :: before), after. split; [reflexivity|].
      split; [assumption|now constructor].
    + now constructor.
Qed.

Lemma category_is_text (f : TableField) :
  isCategoryField f = true -> isTextField f = true.
Proof. unfold isCategoryField, isTextField. now destruct (configType f). Qed.

Lemma hd_filter_app (A : Type) (p : A -> bool) (before after : list A) (x : A) :
  Forall (fun y => p y = false) before -> p x = true ->
  hd_error (filter p (before ++ x :: after)) = Some x.
Proof.
  induction 1 as [|a before Ha _ IH]; simpl; intros Hx.
  - now rewrite Hx.
  - rewrite Ha. now apply IH.
Qed.

(** X13. The default of every field property is the first field of the base's
    first table that the property's own filter allows, and there is none
    exactly when the filter allows no field of that table. *)
Theorem default_field_is_first_allowed (base : Base)
    (properties : list CustomProperty) (key label : string) (table : Table)
    (allowed : TableField -> bool) (default : option TableField) :
  getCustomProperties base = Returns properties ->
  In (FieldProperty key label table allowed default) properties ->
  hd_error (tables base) = Some table
  /\ match default with
     | Some f =>
         exists before after,
           fields table = before ++ f :: after
           /\ allowed f = true
           /\ Forall (fun f' => allowed f' = false) before
     | None => Forall (fun f' => allowed f' = false) (fields table)
     end.
Proof.
  unfold getCustomProperties. destruct (tables base) as [|t rest];
    [discriminate|].
  intros [= <-] [H|[H|[H|[H|[]]]]]; try discriminate;
    injection H as _ _ <- <- <-; (split; [reflexivity|]);
    apply first_allowed.
Qed.

Lemma default_field_is_first_allowed_witness :
  hd_error (tables sampleBase)
  = Some (mkTable [ mkTableField "fldNotes" (OtherFieldType "multilineText");
                    mkTableField "fldRevenue" CURRENCY;
                    mkTableField "fldName" SINGLE_LINE_TEXT;
                    mkTableField "fldSector" SINGLE_SELECT ])
  /\ exists before after,
       fields (mkTable
                 [ mkTableField "fldNotes" (OtherFieldType "multilineText");
                   mkTableField "fldRevenue" CURRENCY;
                   mkTableField "fldName" SINGLE_LINE_TEXT;
                   mkTableField "fldSector" SINGLE_SELECT ])
       = before ++ mkTableField "fldName" SINGLE_LINE_TEXT :: after
       /\ isCategoryField (mkTableField "fldName" SINGLE_LINE_TEXT) = true
       /\ Forall (fun f' => isCategoryField f' = false) before.
Proof.
  apply (@default_field_is_first_allowed sampleBase _ "groupByField"
           "Group By Field (Optional)" _ isCategoryField
           (Some (mkTableField "fldName" SINGLE_LINE_TEXT)) eq_refl).
  right. right. right. left. reflexivity.
Defined.

(** X14. Unless the default label field is a formula, the default group-by field
    is that same field: left at its defaults, the chart groups by its own
    labels. *)
Theorem default_group_is_default_label (base : Base)
    (properties : list CustomProperty) (f : TableField) :
  getCustomProperties base = Returns properties ->
  defaultField "labelField" properties = Some f ->
  configType f <> FORMULA ->
  defaultField "groupByField" properties = Some f.
Proof.
  unfold getCustomProperties. destruct (tables base) as [|t rest];
    [discriminate|].
  intros [= <-]. simpl. intros Hl Hf.
  pose proof (first_allowed isTextField (fields t)) as H.
  rewrite Hl in H. destruct H as [before [after [-> [Hx Hb]]]].
  apply hd_filter_app.
  - eapply Forall_impl; [|exact Hb]. intros y Hy.
    destruct (isCategoryField y) eqn:E; [|reflexivity].
    apply category_is_text in E. congruence.
  - unfold isTextField in Hx. unfold isCategoryField.
    destruct (configType f); try reflexivity; try discriminate.
    now contradiction Hf.
Qed.

Lemma default_group_is_default_label_witness :
  defaultField "groupByField"
    [ StringProperty "title" "Chart Title" "Company revenue map";
      FieldProperty "labelField" "Label Field"
        (mkTable [ mkTableField "fldNotes" (OtherFieldType "multilineText");
                   mkTableField "fldRevenue" CURRENCY;
                   mkTableField "fldName" SINGLE_LINE_TEXT;
                   mkTableField "fldSector" SINGLE_SELECT ])
        isTextField (Some (mkTableField "fldName" SINGLE_LINE_TEXT));
      FieldProperty "valueField" "Value Field (Size)"
        (mkTable [ mkTableField "fldNotes" (OtherFieldType "multilineText");
                   mkTableField "fldRevenue" CURRENCY;
                   mkTableField "fldName" SINGLE_LINE_TEXT;
                   mkTableField "fldSector" SINGLE_SELECT ])
        isNumberField (Some (mkTableField "fldRevenue" CURRENCY));
      FieldProperty "groupByField" "Group By Field (Optional)"
        (mkTable [ mkTableField "fldNotes" (OtherFieldType "multilineText");
                   mkTableField "fldRevenue" CURRENCY;
                   mkTableField "fldName" SINGLE_LINE_TEXT;
                   mkTableField "fldSector" SINGLE_SELECT ])
        isCategoryField (Some (mkTableField "fldName" SINGLE_LINE_TEXT)) ]
  = Some (mkTableField "fldName" SINGLE_LINE_TEXT).
Proof.
  apply (@default_group_is_default_label sampleBase _
           (mkTableField "fldName" SINGLE_LINE_TEXT) eq_refl eq_refl).
  discriminate.
Defined.

(* ------------------------------------------------------------------ *)
(** ** The single-file version *)

Section MonolithFacts.
Variable host : Host.
Variables lf vf gf : Field.

Local Abbreviation nameOf := (groupName host gf).
Local Abbreviation body := (Monolith.groupRecord host lf vf gf).
Local Abbreviation loop := (Monolith.groupRecords host lf vf gf).
Local Abbreviation gstep := (Monolith.groupStep host lf vf gf).
Local Abbreviation grun := (Monolith.groupRun host lf vf gf).
Local Abbreviation node := (Monolith.groupedNode host lf vf gf).

Implicit Types (groups : Monolith.groupsObject) (r : Rec) (rs : list Rec).

Lemma monolith_body_returns groups r :
  getOwn groups (nameOf r) <> None \/ isInherited (nameOf r) = false ->
  body groups r = Returns (gstep groups r).
Proof.
  intros H.
  unfold Monolith.groupRecord, Monolith.groupStep, Monolith.itemsOf,
    Monolith.initGroup, Monolith.pushNode.
  destruct (getOwn groups (nameOf r)) as [items|] eqn:Hg.
  - now rewrite !(Get_own _ _ Hg).
  - destruct H as [H|H]; [congruence|].
    rewrite (Get_undefined _ _ Hg H).
    rewrite (Get_own _ _ (getOwn_putOwn_same groups _ _)).
    now rewrite putOwn_putOwn.
Qed.

Lemma monolith_body_throws groups r :
  getOwn groups (nameOf r) = None -> isInherited (nameOf r) = true ->
  body groups r = Throws.
Proof.
  intros Hg Hi.
  unfold Monolith.groupRecord, Monolith.initGroup, Monolith.pushNode,
    isInherited in *.
  destruct (objectPrototype (nameOf r)) as [m|] eqn:Hm; [|discriminate].
  now rewrite !(Get_inherited _ _ Hg Hm).
Qed.

Lemma monolith_loop_returns rs : forall groups,
  ownGroupNames host gf rs ->
  loop groups rs = Returns (fold_left gstep rs groups).
Proof.
  induction rs as [|r rs IH]; simpl; intros groups Hin; [reflexivity|].
  rewrite monolith_body_returns by (right; apply Hin; now left). simpl.
  apply IH. intros r' Hr'. apply Hin. now right.
Qed.

Lemma monolith_loop_throws rs : forall groups,
  (forall k, In k (keys groups) -> isInherited k = false) ->
  (exists r, In r rs /\ isInherited (nameOf r) = true) ->
  loop groups rs = Throws.
Proof.
  induction rs as [|r rs IH]; simpl; intros groups Hk [r' [Hr' Hi]];
    [destruct Hr'|].
  destruct (isInherited (nameOf r)) eqn:Hr.
  - rewrite monolith_body_throws; [reflexivity| |assumption].
    apply getOwn_None. intros HI. apply Hk in HI. congruence.
  - rewrite monolith_body_returns by now right. simpl. apply IH.
    + intros k HI. unfold Monolith.groupStep in HI.
      destruct (in_dec string_dec (nameOf r) (keys groups)) as [Ho|Hn].
      * rewrite keys_putOwn_old in HI by assumption. now apply Hk.
      * rewrite keys_putOwn_new in HI by assumption.
        apply in_app_or in HI. destruct HI as [HI|[<-|[]]];
          [now apply Hk|assumption].
    + destruct Hr' as [->|Hr']; [congruence|]. now exists r'.
Qed.

Lemma monolith_run_snoc rs r : grun (rs ++ [r]) = gstep (grun rs) r.
Proof. unfold Monolith.groupRun. now rewrite fold_left_app. Qed.

Lemma monolith_keys rs : keys (grun rs) = firstSeen (map nameOf rs).
Proof.
  induction rs as [|r rs IH] using rev_ind; [reflexivity|].
  rewrite monolith_run_snoc, map_app. simpl. unfold Monolith.groupStep.
  destruct (in_dec string_dec (nameOf r) (keys (grun rs))) as [Hold|Hnew].
  - rewrite keys_putOwn_old by assumption.
    rewrite firstSeen_snoc_old; [assumption|].
    now rewrite IH, firstSeen_In in Hold.
  - rewrite keys_putOwn_new by assumption.
    rewrite firstSeen_snoc_new; [now rewrite IH|].
    now rewrite IH, firstSeen_In in Hnew.
Qed.

(** A group holds the nodes of its records, in the order of the records. *)
Lemma monolith_items rs g :
  Monolith.itemsOf (grun rs) g = map node (recordsOfGroup host gf g rs).
Proof.
  induction rs as [|r rs IH] using rev_ind; [reflexivity|].
  rewrite monolith_run_snoc. unfold recordsOfGroup.
  rewrite filter_app, map_app. simpl.
  unfold Monolith.groupStep, Monolith.itemsOf at 1.
  destruct (String.eqb_spec (nameOf r) g) as [<-|Hne].
  - rewrite getOwn_putOwn_same. simpl. now rewrite IH.
  - rewrite getOwn_putOwn_other by assumption. simpl.
    rewrite app_nil_r. exact IH.
Qed.

Lemma monolith_entries rs (e : string * list Monolith.TreemapNode) :
  In e (grun rs) ->
  In (fst e) (map nameOf rs)
  /\ snd e = map node (recordsOfGroup host gf (fst e) rs).
Proof.
  intros He. destruct e as [g items]. simpl.
  assert (Hnd : NoDup (keys (grun rs)))
    by (rewrite monolith_keys; apply firstSeen_NoDup).
  pose proof (getOwn_NoDup_In _ _ _ Hnd He) as Hg.
  split.
  - apply getOwn_Some_key in Hg. now rewrite monolith_keys, firstSeen_In in Hg.
  - rewrite <- monolith_items. unfold Monolith.itemsOf. now rewrite Hg.
Qed.

End MonolithFacts.

Lemma monolith_treemapData_grouped (host : Host) (records : list Rec)
    (lf vf gf : Field) :
  records <> [] -> ownGroupNames host gf records ->
  Monolith.treemapData host records (Some lf) (Some vf) (Some gf)
  = Returns (Monolith.root
               (map Monolith.branch
                    (Object_entries
                       (Monolith.groupRun host lf vf gf records)))).
Proof.
  intros Hne Hown. destruct records as [|r0 rs]; [congruence|].
  unfold Monolith.treemapData.
  now rewrite monolith_loop_returns by assumption.
Qed.

(** X15. In the single-file version a group name that is a member of
    [Object.prototype] makes the callback throw: [groups[groupName]] is
    then a built-in without [push].  It throws in no other case. *)
Theorem monolith_throws_on_inherited_group (host : Host) (records : list Rec)
    (lf vf gf : Field) :
  Monolith.treemapData host records (Some lf) (Some vf) (Some gf) = Throws
  <-> exists r, In r records /\ isInherited (groupName host gf r) = true.
Proof.
  destruct records as [|r0 rs].
  - split; [discriminate|]. intros [r [[] _]].
  - unfold Monolith.treemapData.
    destruct (inherited_group_dec host gf (r0 :: rs)) as [Hown|Hinh].
    + rewrite monolith_loop_returns by assumption. simpl.
      split; [discriminate|]. intros [r [Hr Hi]].
      rewrite (Hown r Hr) in Hi. discriminate.
    + rewrite monolith_loop_throws; [|intros k []|assumption].
      simpl. split; [intros _; assumption|reflexivity].
Qed.

(** X16. In the single-file version, where no group name is a member of
    [Object.prototype]: the branches list the group names in the order of
    own property keys, and every branch holds one leaf per record of its
    group, in the order of the records, each under the record's id with
    the record's label, clamped value and colour; the branch has the colour
    of the first of them. *)
Theorem monolith_groups_keep_every_record (host : Host) (records : list Rec)
    (lf vf gf : Field) :
  records <> [] -> ownGroupNames host gf records ->
  exists t,
    Monolith.treemapData host records (Some lf) (Some vf) (Some gf)
    = Returns t
    /\ enumerationOrder (firstSeen (map (groupName host gf) records))
                        (map Monolith.id (Monolith.childrenOf t))
    /\ forall b, In b (Monolith.childrenOf t) ->
         Monolith.name b = Monolith.id b
         /\ Monolith.childrenOf b
            = map (Monolith.groupedNode host lf vf gf)
                  (recordsOfGroup host gf (Monolith.id b) records)
         /\ Monolith.color b
            = match recordsOfGroup host gf (Monolith.id b) records with
              | first :: _ => groupColor host gf first
              | [] => None
              end.
Proof.
  intros Hne Hown. eexists.
  split; [now apply monolith_treemapData_grouped|].
  unfold Monolith.childrenOf at 1.
  cbn [Monolith.root Monolith.children]. split.
  - rewrite map_map. cbn [Monolith.branch Monolith.id].
    change (map (fun e : string * list Monolith.TreemapNode => fst e)
                (Object_entries (Monolith.groupRun host lf vf gf records)))
      with (keys (Object_entries (Monolith.groupRun host lf vf gf records))).
    rewrite <- monolith_keys with (lf := lf) (vf := vf).
    apply Object_entries_order. rewrite monolith_keys. apply firstSeen_NoDup.
  - intros b Hb. apply in_map_iff in Hb. destruct Hb as [e [<- He]].
    apply (proj1 (Object_entries_In _ _)) in He.
    apply monolith_entries in He. destruct He as [_ He].
    cbn [Monolith.branch Monolith.id Monolith.name Monolith.color].
    split; [reflexivity|]. unfold Monolith.childrenOf.
    cbn [Monolith.children]. split; [exact He|].
    rewrite He.
    destruct (recordsOfGroup host gf (fst e) records); reflexivity.
Qed.

Lemma monolith_groups_keep_every_record_witness :
  exists t,
    Monolith.treemapData sampleHost exampleRecords (Some "Name")
                         (Some "Revenue") (Some "Sector")
    = Returns t
    /\ enumerationOrder
         (firstSeen (map (groupName sampleHost "Sector") exampleRecords))
         (map Monolith.id (Monolith.childrenOf t))
    /\ forall b, In b (Monolith.childrenOf t) ->
         Monolith.name b = Monolith.id b
         /\ Monolith.childrenOf b
            = map (Monolith.groupedNode sampleHost "Name" "Revenue" "Sector")
                  (recordsOfGroup sampleHost "Sector" (Monolith.id b)
                                  exampleRecords)
         /\ Monolith.color b
            = match recordsOfGroup sampleHost "Sector" (Monolith.id b)
                                   exampleRecords with
              | first :: _ => groupColor sampleHost "Sector" first
              | [] => None
              end.
Proof.
  apply (@monolith_groups_keep_every_record sampleHost exampleRecords
           "Name" "Revenue" "Sector").
  - discriminate.
  - intros r [<-|[<-|[<-|[]]]]; reflexivity.
Defined.

Lemma monolith_sum (lf vf : Field) (c : option string) (rs : list Rec) :
  Monolith.sumOfValues (map (Monolith.nodeOf lf vf c) rs)
  = sumZ (map (clamped vf) rs).
Proof. induction rs as [|r rs IH]; simpl; [reflexivity|now rewrite IH]. Qed.

(** X17. In the single-file version without a group field every record has a
    leaf of its own, in the order of the records, and the values of the
    leaves add up to the sum of [max(rawValue, 0)] over the records whose
    value cell is a number, whatever the labels are. *)
Theorem monolith_leaves_sum (host : Host) (records : list Rec)
    (lf vf : Field) :
  records <> [] ->
  exists nodes,
    Monolith.treemapData host records (Some lf) (Some vf) None
    = Returns (Monolith.root nodes)
    /\ map Monolith.id nodes = map recId records
    /\ map Monolith.name nodes = map (label lf) records
    /\ Monolith.sumOfValues nodes = sumZ (numericContributions vf records).
Proof.
  intros Hne. destruct records as [|r0 rs]; [congruence|].
  eexists. split; [reflexivity|]. rewrite !map_map.
  split; [reflexivity|]. split; [reflexivity|].
  now rewrite monolith_sum, numericContributions_clamped.
Qed.

Lemma monolith_leaves_sum_witness :
  exists nodes,
    Monolith.treemapData sampleHost
      [row "__proto__" (CNumber 10) CNull; row "A" (CNumber 5) CNull]
      (Some "Name") (Some "Revenue") None
    = Returns (Monolith.root nodes)
    /\ map Monolith.id nodes
       = map recId [row "__proto__" (CNumber 10) CNull;
                    row "A" (CNumber 5) CNull]
    /\ map Monolith.name nodes
       = map (label "Name") [row "__proto__" (CNumber 10) CNull;
                             row "A" (CNumber 5) CNull]
    /\ Monolith.sumOfValues nodes
       = sumZ (numericContributions "Revenue"
                 [row "__proto__" (CNumber 10) CNull;
                  row "A" (CNumber 5) CNull]).
Proof.
  apply (@monolith_leaves_sum sampleHost
           [row "__proto__" (CNumber 10) CNull; row "A" (CNumber 5) CNull]
           "Name" "Revenue").
  discriminate.
Defined.

Lemma monolith_filter_by_name (lf vf : Field) (c : option string) (l : string)
    (rs : list Rec) :
  filter (fun n => (Monolith.name n =? l)%string)
         (map (Monolith.nodeOf lf vf c) rs)
  = map (Monolith.nodeOf lf vf c)
        (filter (fun r => (label lf r =? l)%string) rs).
Proof.
  induction rs as [|r rs IH]; simpl; [reflexivity|].
  destruct (label lf r =? l)%string; simpl; now rewrite IH.
Qed.

(** X18. The two versions agree on the sums: without a group field, the leaf
    that the component gives a label (no member of [Object.prototype])
    carries the sum of the values of the leaves that the single-file version
    gives the records of that label. *)
Theorem aggregate_merges_monolith_leaves (host : Host) (records : list Rec)
    (lf vf : Field) (title : string) (r : Rec) :
  In r records -> isInherited (label lf r) = false ->
  exists nodes t,
    Monolith.treemapData host records (Some lf) (Some vf) None
    = Returns (Monolith.root nodes)
    /\ treemapData host records (Some lf) (Some vf) None title = Returns t
    /\ In (mkNode (label lf r)
             (Some (PNumber
                (Monolith.sumOfValues
                   (filter (fun n => (Monolith.name n =? label lf r)%string)
                           nodes))))
             None None)
          (childrenOf t).
Proof.
  intros Hr Hi. assert (Hne : records <> []) by (intros ->; destruct Hr).
  exists (map (Monolith.nodeOf lf vf None) records). eexists.
  split; [destruct records; [congruence|reflexivity]|].
  split; [now apply treemapData_ungrouped|].
  rewrite childrenOf_root, monolith_filter_by_name, monolith_sum.
  apply leaf_of_label; [assumption|now apply in_map].
Qed.

Lemma aggregate_merges_monolith_leaves_witness :
  exists nodes t,
    Monolith.treemapData sampleHost exampleRecords (Some "Name")
                         (Some "Revenue") None
    = Returns (Monolith.root nodes)
    /\ treemapData sampleHost exampleRecords (Some "Name") (Some "Revenue")
                   None "Company revenue map" = Returns t
    /\ In (mkNode (label "Name" (row "A" (CNumber 10) (CTag "G1" None)))
             (Some (PNumber
                (Monolith.sumOfValues
                   (filter
                      (fun n =>
                         (Monolith.name n
                          =? label "Name"
                               (row "A" (CNumber 10) (CTag "G1" None)))%string)
                      nodes))))
             None None)
          (childrenOf t).
Proof.
  apply (@aggregate_merges_monolith_leaves sampleHost exampleRecords
           "Name" "Revenue" "Company revenue map"
           (row "A" (CNumber 10) (CTag "G1" None))).
  - left. reflexivity.
  - reflexivity.
Defined.
